(** * sasmodels: magnetic helper functions and the BCC paracrystal kernel

    A shallow embedding of [sasmodels/models/lib/magnetic_functions.c] and of
    the BCC paracrystal model kernel ([_sq_bcc], [_bcc_volume_fraction],
    [Iq]).  A C [double] is read as a real number of [R]: every statement
    below is about exact real arithmetic, and rounding is outside the model.
    Division is the total division of [R]; a statement that needs a
    denominator to be non-zero says so in a hypothesis.

    Output parameters ([double weight[8]], [double sld[8]], [double *vec])
    become returned values: an 8-slot array is a [list R] of length 8 read
    with [nth], a 3-vector is a record.  The primitives the kernels take
    from the surrounding framework ([sas_3j1x_x], [sphere_volume],
    [sphere_form], the Gauss-Legendre table) are section variables. *)

From Stdlib Require Import Reals Lra Lia List ZArith.
Import ListNotations.
Open Scope R_scope.

(** ** Numeric helpers of the kernel header *)

(** Modelled from the spec: the numeric helper [square] of the kernel header,
    which is not part of the two source files. *)
Definition square (x : R) : R := x * x.

(** Modelled from the spec: the numeric helper [cube] of the kernel header. *)
Definition cube (x : R) : R := x * x * x.

(** Modelled from the spec: the numeric helper [clip(x, lo, hi)] of the kernel
    header, which restricts [x] to the interval from [lo] to [hi]. *)
Definition clip (x lo hi : R) : R :=
  if Rlt_dec x lo then lo else if Rgt_dec x hi then hi else x.

(** Modelled from the spec: the constant [M_4PI_3], four thirds of pi. *)
Definition M_4PI_3 : R := 4 * PI / 3.

(** The C library function [expm1], over the reals. *)
Definition expm1 (x : R) : R := exp x - 1.

(** Reading slot [k] of an array of doubles. *)
Definition slot (a : list R) (k : nat) : R := nth k a 0.

(** ** Spin weights *)

Module SpinWeights.

(** The local [in_spin] after line 49. *)
Definition clamped_in (in_spin : R) : R := clip (sqrt (square in_spin)) 0.0 1.0.

(** The local [out_spin] after line 50. *)
Definition clamped_out (out_spin : R) : R := clip (sqrt (square out_spin)) 0.0 1.0.

(** The local [norm] when the weights are computed.  It is initialised from
    the parameter [out_spin] at its declaration, before the parameter is
    overwritten by its clamped value, and reassigned only in the branch
    [out_spin < 0.5]. *)
Definition set_weights_norm (out_spin : R) : R :=
  let norm := out_spin in
  let out_spin := clamped_out out_spin in
  if Rlt_dec out_spin 0.5 then 1 - out_spin else norm.

Definition set_weights (in_spin out_spin : R) : list R :=
  let norm := set_weights_norm out_spin in
  let in_spin := clamped_in in_spin in
  let out_spin := clamped_out out_spin in
  let w0 := (1.0 - in_spin) * (1.0 - out_spin) / norm in
  let w2 := in_spin * out_spin / norm in
  let w4 := (1.0 - in_spin) * out_spin / norm in
  let w6 := in_spin * (1.0 - out_spin) / norm in
  [w0; w0; w2; w2; w4; w4; w6; w6].

(** What the description of the algorithm says: clamp first, then take the
    normalisation from the clamped value. *)
Definition spec_norm (out_spin : R) : R :=
  let o := clamped_out out_spin in
  if Rlt_dec o 0.5 then 1 - o else o.

Definition spec_weights (in_spin out_spin : R) : list R :=
  let norm := spec_norm out_spin in
  let i := clamped_in in_spin in
  let o := clamped_out out_spin in
  let w0 := (1.0 - i) * (1.0 - o) / norm in
  let w2 := i * o / norm in
  let w4 := (1.0 - i) * o / norm in
  let w6 := i * (1.0 - o) / norm in
  [w0; w0; w2; w2; w4; w4; w6; w6].

(** The sum of the four real slots. *)
Definition physical_sum (w : list R) : R :=
  slot w 0 + slot w 2 + slot w 4 + slot w 6.

End SpinWeights.

(** ** Core-shell amplitude *)

(** The C conversion [(int) x] of a double: truncation toward zero.  (The
    conversion is undefined in C when the result does not fit an [int];
    the model keeps the mathematical value.) *)
Definition c_int (x : R) : Z :=
  if Rle_dec 0 x then Int_part x else (- Int_part (- x))%Z.

Module CoreShell.
Section Kernel.

(** The spherical Bessel kernel [3 j1(x)/x] of the framework. *)
Variable sas_3j1x_x : R -> R.

(** The locals [f], [r] and [last_sld] of [fq_core_shell]. *)
Record shell_state : Type := mk_shell_state
  { acc_f : R; acc_r : R; acc_last_sld : R }.

(** One pass through the body of the loop, at index [i]. *)
Definition shell_step (q : R) (sld thickness : list R)
    (st : shell_state) (i : nat) : shell_state :=
  let f := acc_f st in
  let r := acc_r st in
  let last_sld := acc_last_sld st in
  mk_shell_state
    (f + M_4PI_3 * cube r * (slot sld i - last_sld) * sas_3j1x_x (q * r))
    (r + slot thickness i)
    (slot sld i).

Definition fq_core_shell (q sld_core radius sld_solvent fp_n : R)
    (sld thickness : list R) : R :=
  let n := c_int (fp_n + 0.5) in
  let st := fold_left (shell_step q sld thickness) (seq 0 (Z.to_nat n))
              (mk_shell_state 0 radius sld_core) in
  acc_f st
  + M_4PI_3 * cube (acc_r st) * (sld_solvent - acc_last_sld st)
    * sas_3j1x_x (q * acc_r st).

End Kernel.
End CoreShell.

(** ** Langevin function *)

Module Langevin.

Definition langevin (x : R) : R :=
  if Rlt_dec x 0.00001 then 1.0 / 3.0 * x else 1.0 / tanh x - 1 / x.

Definition langevinoverx (x : R) : R :=
  if Rlt_dec x 0.00001 then 1.0 / 3.0 else langevin x / x.

End Langevin.

(** ** Vector algebra *)

Module Vec.

(** A [double[3]]. *)
Record vec3 : Type := mkvec { c0 : R; c1 : R; c2 : R }.

Definition SET_VEC (v0 v1 v2 : R) : vec3 := mkvec v0 v1 v2.

Definition SCALE_VEC (vector : vec3) (a : R) : vec3 :=
  mkvec (a * c0 vector) (a * c1 vector) (a * c2 vector).

Definition ADD_VEC (vec1 vec2 : vec3) : vec3 :=
  mkvec (c0 vec1 + c0 vec2) (c1 vec1 + c1 vec2) (c2 vec1 + c2 vec2).

Definition SCALAR_VEC (vec1 vec2 : vec3) : R :=
  c0 vec1 * c0 vec2 + c1 vec1 * c1 vec2 + c2 vec1 * c2 vec2.

Definition MAG_VEC (v0 v1 v2 : R) : R :=
  let vec := SET_VEC v0 v1 v2 in
  sqrt (SCALAR_VEC vec vec).

Definition ORTH_VEC (vec1 vec2 : vec3) : vec3 :=
  mkvec
    (c0 vec1 - SCALAR_VEC vec1 vec2 / SCALAR_VEC vec2 vec2 * c0 vec2)
    (c1 vec1 - SCALAR_VEC vec1 vec2 / SCALAR_VEC vec2 vec2 * c1 vec2)
    (c2 vec1 - SCALAR_VEC vec1 vec2 / SCALAR_VEC vec2 vec2 * c2 vec2).

(** What the description of the operation says:
    [v1 - (dot(v1,v2)/dot(v2,v2)) * v2]. *)
Definition projection_remainder (v1 v2 : vec3) : vec3 :=
  ADD_VEC v1 (SCALE_VEC v2 (- (SCALAR_VEC v1 v2 / SCALAR_VEC v2 v2))).

End Vec.

(** ** Scattering vector and magnetic scattering length densities *)

Module Magnetic.
Import Vec.

Definition set_scatvec (q cos_theta sin_theta alpha beta : R) : vec3 :=
  let sin_alpha := sin (alpha * PI / 180) in
  let cos_alpha := cos (alpha * PI / 180) in
  let sin_beta := sin (beta * PI / 180) in
  let cos_beta := cos (beta * PI / 180) in
  mkvec
    (q * (cos_alpha * cos_theta))
    (q * (cos_theta * sin_alpha * sin_beta + cos_beta * sin_theta))
    (q * (- cos_beta * cos_theta * sin_alpha + sin_beta * sin_theta)).

Definition mag_sld (x y z mxreal mximag myreal myimag mzreal mzimag nuc : R)
    : list R :=
  let q := sqrt (x * x + y * y + z * z) in
  let vector := SET_VEC (x / q) (y / q) (z / q) in
  let Mvectorreal := SET_VEC mxreal myreal mzreal in
  let Mvectorimag := SET_VEC mximag myimag mzimag in
  let Pvector := SET_VEC 0 0 1 in
  let perpy := SET_VEC 0 1 0 in
  let perpx := SET_VEC 1 0 0 in
  let Mperpreal := ORTH_VEC Mvectorreal vector in
  let Mperpimag := ORTH_VEC Mvectorimag vector in
  [ nuc - SCALAR_VEC Pvector Mperpreal;
    SCALAR_VEC Pvector Mperpimag;
    nuc + SCALAR_VEC Pvector Mperpreal;
    - SCALAR_VEC Pvector Mperpimag;
    SCALAR_VEC perpy Mperpreal + SCALAR_VEC perpx Mperpimag;
    SCALAR_VEC perpy Mperpimag - SCALAR_VEC perpx Mperpreal;
    SCALAR_VEC perpy Mperpreal - SCALAR_VEC perpx Mperpimag;
    SCALAR_VEC perpy Mperpimag + SCALAR_VEC perpx Mperpreal ].

End Magnetic.

(** ** BCC paracrystal *)

Module Bcc.

(** The three lattice-sum arguments of [_sq_bcc]. *)
Definition lattice_a1 (qa qb qc : R) : R := qa - qc + qb.
Definition lattice_a2 (qa qb qc : R) : R := qa + qc - qb.
Definition lattice_a3 (qa qb qc : R) : R := - qa + qc + qb.

(** The local [arg] of [_sq_bcc]. *)
Definition lattice_arg (qa qb qc dnn d_factor : R) : R :=
  let a1 := lattice_a1 qa qb qc in
  let a2 := lattice_a2 qa qb qc in
  let a3 := lattice_a3 qa qb qc in
  let half_dnn := 0.5 * dnn in
  0.5 * square (half_dnn * d_factor) * (a1 * a1 + a2 * a2 + a3 * a3).

(** One factor of the denominator of the compiled branch. *)
Definition denominator_factor (exp_arg x : R) : R :=
  (exp_arg - 2.0 * cos x) * exp_arg + 1.0.

(** The branch under [#if 1]. *)
Definition _sq_bcc (qa qb qc dnn d_factor : R) : R :=
  let a1 := lattice_a1 qa qb qc in
  let a2 := lattice_a2 qa qb qc in
  let a3 := lattice_a3 qa qb qc in
  let half_dnn := 0.5 * dnn in
  let arg := lattice_arg qa qb qc dnn d_factor in
  let exp_arg := exp (- arg) in
  - cube (expm1 (- 2.0 * arg))
  / ( denominator_factor exp_arg (half_dnn * a1)
    * denominator_factor exp_arg (half_dnn * a2)
    * denominator_factor exp_arg (half_dnn * a3) ).

(** The branch under [#else], the alternate form of the source. *)
Definition _sq_bcc_alt (qa qb qc dnn d_factor : R) : R :=
  let a1 := lattice_a1 qa qb qc in
  let a2 := lattice_a2 qa qb qc in
  let a3 := lattice_a3 qa qb qc in
  let half_dnn := 0.5 * dnn in
  let arg := lattice_arg qa qb qc dnn d_factor in
  let sinh_qd := sinh arg in
  let cosh_qd := cosh arg in
  sinh_qd / (cosh_qd - cos (half_dnn * a1))
  * sinh_qd / (cosh_qd - cos (half_dnn * a2))
  * sinh_qd / (cosh_qd - cos (half_dnn * a3)).

Section Model.

(** Sphere helpers of the framework. *)
Variable sphere_volume : R -> R.
Variable sphere_form : R -> R -> R -> R -> R.

(** The 150-point Gauss-Legendre table of the framework. *)
Variable Gauss150Z : list R.
Variable Gauss150Wt : list R.

Definition _bcc_volume_fraction (radius dnn : R) : R :=
  2.0 * sphere_volume (sqrt 0.75 * radius / dnn).

Definition form_volume (radius : R) : R := sphere_volume radius.

(** The body of the loop over [j], adding to [inner_sum]. *)
Definition inner_step (qab qc dnn d_factor : R) (inner_sum : R) (j : nat)
    : R :=
  let phi_m := PI in
  let phi_b := PI in
  let phi := slot Gauss150Z j * phi_m + phi_b in
  let sin_phi := sin phi in
  let cos_phi := cos phi in
  let qa := qab * cos_phi in
  let qb := qab * sin_phi in
  let fq := _sq_bcc qa qb qc dnn d_factor in
  inner_sum + slot Gauss150Wt j * fq.

(** The body of the loop over [i], adding to [outer_sum]. *)
Definition outer_step (q dnn d_factor : R) (outer_sum : R) (i : nat) : R :=
  let phi_m := PI in
  let theta_m := PI / 2 in
  let theta_b := PI / 2 in
  let theta := slot Gauss150Z i * theta_m + theta_b in
  let sin_theta := sin theta in
  let cos_theta := cos theta in
  let qc := q * cos_theta in
  let qab := q * sin_theta in
  let inner_sum :=
    fold_left (inner_step qab qc dnn d_factor) (seq 0 150) 0.0 in
  let inner_sum := inner_sum * phi_m in
  outer_sum + slot Gauss150Wt i * inner_sum * sin_theta.

Definition Iq (q dnn d_factor radius sld solvent_sld : R) : R :=
  let theta_m := PI / 2 in
  let outer_sum := fold_left (outer_step q dnn d_factor) (seq 0 150) 0.0 in
  let outer_sum := outer_sum * theta_m in
  let Sq := outer_sum / (4.0 * PI) in
  let Pq := sphere_form q radius sld solvent_sld in
  _bcc_volume_fraction radius dnn * Pq * Sq.

(** The quadrature sum the description of [Iq] speaks of: the sum over the
    150 nodes of weight times integrand. *)
Definition gauss150 (f : R -> R) : R :=
  sum_f_R0 (fun k => slot Gauss150Wt k * f (slot Gauss150Z k)) 149.

(** Node [z] of [-1, 1] mapped to an angle, for a half-range [m] and a
    midpoint [b]. *)
Definition angle (m b z : R) : R := z * m + b.

(** The orientation average as the description states it. *)
Definition powder_average (q dnn d_factor : R) : R :=
  (PI / 2) *
  gauss150 (fun zt =>
    let theta := angle (PI / 2) (PI / 2) zt in
    PI *
    gauss150 (fun zp =>
      let phi := angle PI PI zp in
      _sq_bcc (q * sin theta * cos phi) (q * sin theta * sin phi)
        (q * cos theta) dnn d_factor)
    * sin theta)
  / (4 * PI).

End Model.
End Bcc.

(** ** BCC paracrystal, oriented case *)

Module Oriented.
Section Model.

Variable sphere_volume : R -> R.
Variable sphere_form : R -> R -> R -> R -> R.

(** Modelled from the spec: the orientation helper [ORIENT_ASYMMETRIC] of
    the framework, which turns the detector coordinates and the three
    orientation angles into a magnitude [q] and three direction cosines
    [xhat], [yhat], [zhat]; it is not part of the two source files and is
    taken as a parameter returning the four values it assigns. *)
Variable ORIENT_ASYMMETRIC : R -> R -> R -> R -> R -> R * R * R * R.

Definition Iqxy (qx qy dnn d_factor radius sld solvent_sld theta phi psi : R)
    : R :=
  let '(q, xhat, yhat, zhat) := ORIENT_ASYMMETRIC qx qy theta phi psi in
  let qa := q * xhat in
  let qb := q * yhat in
  let qc := q * zhat in
  let q := sqrt (qa * qa + qb * qb + qc * qc) in
  let Pq := sphere_form q radius sld solvent_sld in
  let Sq := Bcc._sq_bcc qa qb qc dnn d_factor in
  Bcc._bcc_volume_fraction sphere_volume radius dnn * Pq * Sq.

End Model.
End Oriented.

(** ** Auxiliary functions for the core-shell loop *)

Module CoreShellAux.

(** The value of the local [r] of [fq_core_shell] after [n] passes of the
    loop: the core radius plus the first [n] thicknesses. *)
Definition outer_radius (radius : R) (thickness : list R) (n : nat) : R :=
  fold_left (fun r i => r + slot thickness i) (seq 0 n) radius.

(** The number of passes of the loop for a given [fp_n]. *)
Definition shell_count (fp_n : R) : nat := Z.to_nat (c_int (fp_n + 0.5)).

(** The locals of [fq_core_shell] after [n] passes of the loop. *)
Definition loop_state (sas_3j1x_x : R -> R) (q sld_core radius : R)
    (sld thickness : list R) (n : nat) : CoreShell.shell_state :=
  fold_left (CoreShell.shell_step sas_3j1x_x q sld thickness) (seq 0 n)
    (CoreShell.mk_shell_state 0 radius sld_core).

End CoreShellAux.

(** ** Auxiliary functions for the analysis of the branch boundary *)

Module Hyperbolic.

(** A combination [al*y*cosh(y) + (be + ga*y^2)*sinh(y)] of the hyperbolic
    functions, and its derivative. *)
Definition mix (al be ga y : R) : R :=
  al * y * cosh y + (be + ga * y * y) * sinh y.

Definition mix_deriv (al be ga y : R) : R :=
  (al + be + ga * y * y) * cosh y + (al + 2 * ga) * y * sinh y.

End Hyperbolic.

(** ** Helper lemmas *)

(** The decimal literals of the source, as fractions. *)
Lemma lit_zero : 0.0 = 0.
Proof. lra. Qed.

Lemma lit_one : 1.0 = 1.
Proof. lra. Qed.

Lemma lit_two : 2.0 = 2.
Proof. lra. Qed.

Lemma lit_four : 4.0 = 4.
Proof. lra. Qed.

Lemma lit_half : 0.5 = 1 / 2.
Proof. lra. Qed.

Lemma lit_three_quarters : 0.75 = 3 / 4.
Proof. lra. Qed.

Ltac plain_literals :=
  rewrite ?lit_zero, ?lit_one, ?lit_two, ?lit_four, ?lit_half,
    ?lit_three_quarters in *.

Lemma sqrt_square_abs (x : R) : sqrt (square x) = Rabs x.
Proof. unfold square. apply sqrt_Rsqr_abs. Qed.

Lemma clip_id (x lo hi : R) : lo <= x <= hi -> clip x lo hi = x.
Proof.
  intros [Hlo Hhi]. unfold clip.
  destruct (Rlt_dec x lo) as [H | _]; [lra |].
  destruct (Rgt_dec x hi) as [H | _]; [lra | reflexivity].
Qed.

Lemma clip_bounds (x lo hi : R) : lo <= hi -> lo <= clip x lo hi <= hi.
Proof.
  intros Hle. unfold clip.
  destruct (Rlt_dec x lo); [lra |].
  destruct (Rgt_dec x hi); lra.
Qed.

Lemma clamped_unit (x : R) :
  0 <= x <= 1 -> clip (sqrt (square x)) 0.0 1.0 = x.
Proof.
  intros Hx. rewrite sqrt_square_abs, Rabs_pos_eq by lra.
  apply clip_id. lra.
Qed.

Lemma clamped_neg (x : R) :
  clip (sqrt (square (- x))) 0.0 1.0 = clip (sqrt (square x)) 0.0 1.0.
Proof. now rewrite !sqrt_square_abs, Rabs_Ropp. Qed.

Module SpinWeightsFacts.
Import SpinWeights.

Lemma norm_unit (o : R) :
  0 <= o <= 1 -> set_weights_norm o = if Rlt_dec o 0.5 then 1 - o else o.
Proof.
  intros Ho. unfold set_weights_norm, clamped_out.
  rewrite (clamped_unit o Ho). reflexivity.
Qed.

(** On valid efficiencies the normalisation is the one taken from the
    clamped value, and the weights are those of the description. *)
Lemma set_weights_on_unit_interval (i o : R) :
  0 <= o <= 1 -> set_weights i o = spec_weights i o.
Proof.
  intros Ho. unfold set_weights, spec_weights.
  replace (spec_norm o) with (set_weights_norm o); [reflexivity |].
  rewrite (norm_unit o Ho). unfold spec_norm, clamped_out.
  now rewrite (clamped_unit o Ho).
Qed.

Lemma physical_sum_norm (i o : R) :
  set_weights_norm o <> 0 ->
  physical_sum (set_weights i o) = 1 / set_weights_norm o.
Proof.
  intros Hn. unfold physical_sum, set_weights, slot. cbn [nth].
  plain_literals. field. exact Hn.
Qed.

End SpinWeightsFacts.

(** ** Spin weights: the claims *)

Module SpinWeightsClaims.
Import SpinWeights SpinWeightsFacts.

(** C1, as stated, fails: at [in_spin = out_spin = 0.5] the inputs are valid
    efficiencies, the normalisation is [0.5], and the four real weights
    [weight[0] + weight[2] + weight[4] + weight[6]] sum to 2, not to 1. *)
Lemma set_weights_sum_not_unity :
  0 <= 0.5 <= 1 /\
  physical_sum (set_weights 0.5 0.5) = 2 /\
  physical_sum (set_weights 0.5 0.5) <> 1.
Proof.
  assert (Hn : set_weights_norm 0.5 = 0.5).
  { rewrite norm_unit by lra. destruct (Rlt_dec 0.5 0.5); lra. }
  assert (Hs : physical_sum (set_weights 0.5 0.5) = 2).
  { rewrite physical_sum_norm by (rewrite Hn; lra). rewrite Hn. lra. }
  split; [lra |]. split; [exact Hs | rewrite Hs; lra].
Qed.

(** C1, amended: for every [in_spin] and [out_spin] in [0,1], after
    [set_weights] the four real weights sum to the reciprocal of the
    normalisation, [weight[0] + weight[2] + weight[4] + weight[6] == 1/norm],
    where [norm] is [out_spin] when [out_spin >= 0.5] and [1 - out_spin]
    otherwise; the sum lies between 1 and 2, and it is 1 exactly when
    [out_spin] is 0 or 1. *)
Theorem set_weights_sum_reciprocal_norm (in_spin out_spin : R) :
  0 <= in_spin <= 1 ->
  0 <= out_spin <= 1 ->
  let norm := if Rlt_dec out_spin 0.5 then 1 - out_spin else out_spin in
  let total := physical_sum (set_weights in_spin out_spin) in
  total = 1 / norm /\
  1 <= total <= 2 /\
  (total = 1 <-> out_spin = 0 \/ out_spin = 1).
Proof.
  intros Hi Ho norm total.
  assert (Hn : set_weights_norm out_spin = norm) by exact (norm_unit _ Ho).
  assert (Hpos : 1 / 2 <= norm <= 1).
  { subst norm. destruct (Rlt_dec out_spin 0.5); lra. }
  assert (Ht : total = 1 / norm).
  { subst total. rewrite physical_sum_norm by (rewrite Hn; lra).
    now rewrite Hn. }
  assert (Hinv : total * norm = 1) by (rewrite Ht; field; lra).
  split; [exact Ht |]. split; [nra |].
  split.
  - intros H1. assert (Hn1 : norm = 1) by nra.
    subst norm. destruct (Rlt_dec out_spin 0.5); [left | right]; lra.
  - intros H01. assert (Hn1 : norm = 1).
    { subst norm. destruct (Rlt_dec out_spin 0.5); lra. }
    nra.
Qed.

Lemma set_weights_sum_reciprocal_norm_witness :
  let total := physical_sum (set_weights (1 / 4) (3 / 4)) in
  total = 1 / (if Rlt_dec (3 / 4) 0.5 then 1 - 3 / 4 else 3 / 4) /\
  1 <= total <= 2 /\
  (total = 1 <-> 3 / 4 = 0 \/ 3 / 4 = 1).
Proof.
  apply (set_weights_sum_reciprocal_norm (1 / 4) (3 / 4)); lra.
Defined.

(** C2 at the input [in_spin = 1], [out_spin = -1]: the clamped [out_spin]
    is 1, which is not below 0.5, so [norm] keeps the value it was
    initialised with, the unclamped [-1]; [weight[2]] is then [-1], while
    the normalisation taken from the clamped value is 1 and the sign-flipped
    input [out_spin = 1] gives [weight[2] = 1]. *)
Theorem set_weights_norm_uses_unclamped_out_spin :
  clamped_out (-1) = 1 /\
  set_weights_norm (-1) = -1 /\
  spec_norm (-1) = 1 /\
  slot (set_weights 1 (-1)) 2 = -1 /\
  slot (set_weights 1 1) 2 = 1 /\
  slot (spec_weights 1 (-1)) 2 = 1.
Proof.
  assert (Hc : clip (sqrt (square 1)) 0.0 1.0 = 1) by (apply clamped_unit; lra).
  assert (Hm : clip (sqrt (square (-1))) 0.0 1.0 = 1)
    by (replace (-1) with (Ropp 1) by lra; rewrite clamped_neg; exact Hc).
  unfold set_weights, spec_weights, set_weights_norm, spec_norm, clamped_out,
    clamped_in, slot.
  cbn [nth]. rewrite Hc, Hm.
  destruct (Rlt_dec 1 0.5) as [H | _]; [lra |].
  repeat split; lra.
Qed.

(** C8: at [out_spin == 0] the clamped value is 0, which is below 0.5, so
    [set_weights] takes the branch [norm = 1 - out_spin] and [norm] is 1;
    the eight divisions by [norm] are divisions by 1 and the weights are
    [1 - in_spin] (slots 0, 1), 0 (slots 2 to 5) and [in_spin] (slots 6, 7)
    of the clamped [in_spin]. *)
Theorem set_weights_zero_out_spin_norm (in_spin : R) :
  clamped_out 0 = 0 /\
  clamped_out 0 < 0.5 /\
  set_weights_norm 0 = 1 - clamped_out 0 /\
  set_weights_norm 0 = 1 /\
  set_weights_norm 0 <> 0 /\
  set_weights in_spin 0 =
    [1 - clamped_in in_spin; 1 - clamped_in in_spin; 0; 0; 0; 0;
     clamped_in in_spin; clamped_in in_spin].
Proof.
  assert (Hc : clamped_out 0 = 0) by (apply clamped_unit; lra).
  assert (Hn : set_weights_norm 0 = 1).
  { unfold set_weights_norm. rewrite Hc.
    destruct (Rlt_dec 0 0.5) as [_ | H]; [lra | exfalso; apply H; lra]. }
  repeat split; try (rewrite ?Hc, ?Hn; lra).
  unfold set_weights. rewrite Hn, Hc. cbv zeta.
  set (c := clamped_in in_spin).
  replace ((1.0 - c) * (1.0 - 0) / 1) with (1 - c) by lra.
  replace (c * 0 / 1) with 0 by lra.
  replace ((1.0 - c) * 0 / 1) with 0 by lra.
  replace (c * (1.0 - 0) / 1) with c by lra.
  reflexivity.
Qed.

End SpinWeightsClaims.

(** ** Vector algebra and the magnetic decomposition: the claims *)

Module VecClaims.
Import Vec.

Lemma vec3_eq (a b : vec3) :
  c0 a = c0 b -> c1 a = c1 b -> c2 a = c2 b -> a = b.
Proof. destruct a, b. cbn. intros -> -> ->. reflexivity. Qed.

(** The remainder of the zero vector is the zero vector, whatever the
    direction. *)
Lemma ORTH_VEC_zero (v : vec3) : ORTH_VEC (SET_VEC 0 0 0) v = SET_VEC 0 0 0.
Proof.
  apply vec3_eq; unfold ORTH_VEC, SCALAR_VEC, SET_VEC, Rdiv; cbn; ring.
Qed.

(** C7: for every [v1] and every [v2] with [dot(v2, v2) != 0], the vector
    written by [ORTH_VEC(out, v1, v2)] is
    [v1 - (dot(v1,v2)/dot(v2,v2)) * v2] in each component, and its inner
    product with [v2] is zero. *)
Theorem ORTH_VEC_orthogonal (v1 v2 : vec3) :
  SCALAR_VEC v2 v2 <> 0 ->
  let out := ORTH_VEC v1 v2 in
  let k := SCALAR_VEC v1 v2 / SCALAR_VEC v2 v2 in
  c0 out = c0 v1 - k * c0 v2 /\
  c1 out = c1 v1 - k * c1 v2 /\
  c2 out = c2 v1 - k * c2 v2 /\
  out = projection_remainder v1 v2 /\
  SCALAR_VEC out v2 = 0.
Proof.
  intros Hnz out k.
  split; [reflexivity |]. split; [reflexivity |]. split; [reflexivity |].
  split.
  - apply vec3_eq; subst out; unfold projection_remainder, ADD_VEC, SCALE_VEC,
      ORTH_VEC; cbn; ring.
  - subst out. destruct v1 as [a0 a1 a2], v2 as [b0 b1 b2].
    unfold ORTH_VEC, SCALAR_VEC in *. cbn in *. field. exact Hnz.
Qed.

Lemma ORTH_VEC_orthogonal_witness :
  let v1 := SET_VEC 1 2 3 in
  let v2 := SET_VEC 0 0 2 in
  let out := ORTH_VEC v1 v2 in
  let k := SCALAR_VEC v1 v2 / SCALAR_VEC v2 v2 in
  c0 out = c0 v1 - k * c0 v2 /\
  c1 out = c1 v1 - k * c1 v2 /\
  c2 out = c2 v1 - k * c2 v2 /\
  out = projection_remainder v1 v2 /\
  SCALAR_VEC out v2 = 0.
Proof.
  apply (ORTH_VEC_orthogonal (SET_VEC 1 2 3) (SET_VEC 0 0 2)).
  unfold SCALAR_VEC, SET_VEC. cbn. lra.
Defined.

End VecClaims.

Module MagneticClaims.
Import Vec Magnetic VecClaims.

(** C6: for every direction [(x, y, z)] with [sqrt(x^2+y^2+z^2) != 0] and
    every [nuc], [mag_sld] with all six magnetisation components zero writes
    [sld[0] = sld[2] = nuc] and zero into the six other slots. *)
Theorem mag_sld_zero_magnetisation (x y z nuc : R) :
  sqrt (x * x + y * y + z * z) <> 0 ->
  mag_sld x y z 0 0 0 0 0 0 nuc = [nuc; 0; nuc; 0; 0; 0; 0; 0].
Proof.
  intros _. unfold mag_sld. cbv zeta.
  rewrite ORTH_VEC_zero.
  unfold SCALAR_VEC, SET_VEC. cbn [c0 c1 c2].
  repeat (apply f_equal2; [ring |]). reflexivity.
Qed.

Lemma mag_sld_zero_magnetisation_witness :
  mag_sld 3 0 4 0 0 0 0 0 0 7 = [7; 0; 7; 0; 0; 0; 0; 0].
Proof.
  apply (mag_sld_zero_magnetisation 3 0 4 7).
  replace (3 * 3 + 0 * 0 + 4 * 4) with (5 * 5) by ring.
  rewrite sqrt_square; lra.
Defined.

End MagneticClaims.

(** ** Core-shell amplitude: the claims *)

Module CoreShellClaims.
Import CoreShell.

Lemma Int_part_zero_iff (x : R) : Int_part x = 0%Z <-> 0 <= x < 1.
Proof.
  split.
  - intros H. pose proof (base_Int_part x) as [Hle Hgt].
    rewrite H in Hle, Hgt. cbn in Hle, Hgt. lra.
  - intros Hx. symmetry. apply Int_part_spec. cbn. lra.
Qed.

(** The conversion to [int] gives 0 exactly on the open interval from -1
    to 1. *)
Lemma c_int_zero_iff (x : R) : c_int x = 0%Z <-> -1 < x < 1.
Proof.
  unfold c_int. destruct (Rle_dec 0 x) as [Hx | Hx].
  - rewrite Int_part_zero_iff. lra.
  - assert (Hneg : x < 0) by lra.
    assert (Hiff : (- Int_part (- x))%Z = 0%Z <-> Int_part (- x) = 0%Z) by lia.
    rewrite Hiff, Int_part_zero_iff. lra.
Qed.

(** The shell count is 0 exactly for [fp_n] strictly between -1.5 and 0.5. *)
Lemma shell_count_zero_iff (fp_n : R) :
  c_int (fp_n + 0.5) = 0%Z <-> -1.5 < fp_n < 0.5.
Proof. rewrite c_int_zero_iff. lra. Qed.

(** The loop does run for a positive count: with one shell the amplitude is
    the core term against the shell plus the shell term against the
    solvent, at the radius grown by the thickness of the shell. *)
Example fq_core_shell_one_shell (sas_3j1x_x : R -> R)
    (q sld_core radius sld_solvent s1 t1 : R) :
  fq_core_shell sas_3j1x_x q sld_core radius sld_solvent 1 [s1] [t1]
  = M_4PI_3 * cube radius * (s1 - sld_core) * sas_3j1x_x (q * radius)
    + M_4PI_3 * cube (radius + t1) * (sld_solvent - s1)
      * sas_3j1x_x (q * (radius + t1)).
Proof.
  assert (Hn : c_int (1 + 0.5) = 1%Z).
  { unfold c_int. destruct (Rle_dec 0 (1 + 0.5)) as [_ | Hn]; [| lra].
    symmetry. apply Int_part_spec. cbn. lra. }
  unfold fq_core_shell. rewrite Hn.
  change (Z.to_nat 1) with 1%nat. cbn [seq fold_left].
  unfold shell_step, slot.
  cbn [nth acc_f acc_r acc_last_sld]. ring.
Qed.

(** C5: for every [q], [sld_core], [radius], [sld_solvent] and every [fp_n]
    that rounds to 0, that is [(int)(fp_n+0.5) == 0], [fq_core_shell]
    returns the amplitude of the uniform sphere,
    [(4*pi/3) * radius^3 * (sld_solvent - sld_core) * sas_3j1x_x(q*radius)],
    whatever the arrays [sld[]] and [thickness[]] hold. *)
Theorem fq_core_shell_no_shell (sas_3j1x_x : R -> R)
    (q sld_core radius sld_solvent fp_n : R) (sld thickness : list R) :
  c_int (fp_n + 0.5) = 0%Z ->
  fq_core_shell sas_3j1x_x q sld_core radius sld_solvent fp_n sld thickness
  = (4 * PI / 3) * radius ^ 3 * (sld_solvent - sld_core)
    * sas_3j1x_x (q * radius)
  /\
  forall sld' thickness' : list R,
    fq_core_shell sas_3j1x_x q sld_core radius sld_solvent fp_n sld thickness
    = fq_core_shell sas_3j1x_x q sld_core radius sld_solvent fp_n
        sld' thickness'.
Proof.
  intros Hn. unfold fq_core_shell. rewrite Hn. cbn.
  split; [| reflexivity].
  unfold M_4PI_3, cube. ring.
Qed.

Lemma fq_core_shell_no_shell_witness :
  fq_core_shell (fun x => x + 1) 2 3 5 7 0 [11; 13] [17; 19]
  = (4 * PI / 3) * 5 ^ 3 * (7 - 3) * (2 * 5 + 1)
  /\
  forall sld' thickness' : list R,
    fq_core_shell (fun x => x + 1) 2 3 5 7 0 [11; 13] [17; 19]
    = fq_core_shell (fun x => x + 1) 2 3 5 7 0 sld' thickness'.
Proof.
  apply (fq_core_shell_no_shell (fun x => x + 1) 2 3 5 7 0 [11; 13] [17; 19]).
  apply shell_count_zero_iff. lra.
Defined.

End CoreShellClaims.

(** ** BCC lattice sum: the claims *)

Module BccClaims.
Import Bcc.

(** *** Effect of exchanging or negating the coordinates on the arguments *)

Lemma lattice_a1_swap_ab (qa qb qc : R) :
  lattice_a1 qb qa qc = lattice_a1 qa qb qc.
Proof. unfold lattice_a1. ring. Qed.

Lemma lattice_a2_swap_ab (qa qb qc : R) :
  lattice_a2 qb qa qc = lattice_a3 qa qb qc.
Proof. unfold lattice_a2, lattice_a3. ring. Qed.

Lemma lattice_a3_swap_ab (qa qb qc : R) :
  lattice_a3 qb qa qc = lattice_a2 qa qb qc.
Proof. unfold lattice_a2, lattice_a3. ring. Qed.

Lemma lattice_a1_swap_ac (qa qb qc : R) :
  lattice_a1 qc qb qa = lattice_a3 qa qb qc.
Proof. unfold lattice_a1, lattice_a3. ring. Qed.

Lemma lattice_a2_swap_ac (qa qb qc : R) :
  lattice_a2 qc qb qa = lattice_a2 qa qb qc.
Proof. unfold lattice_a2. ring. Qed.

Lemma lattice_a3_swap_ac (qa qb qc : R) :
  lattice_a3 qc qb qa = lattice_a1 qa qb qc.
Proof. unfold lattice_a1, lattice_a3. ring. Qed.

Lemma lattice_a1_neg (qa qb qc : R) :
  lattice_a1 (- qa) (- qb) (- qc) = - lattice_a1 qa qb qc.
Proof. unfold lattice_a1. ring. Qed.

Lemma lattice_a2_neg (qa qb qc : R) :
  lattice_a2 (- qa) (- qb) (- qc) = - lattice_a2 qa qb qc.
Proof. unfold lattice_a2. ring. Qed.

Lemma lattice_a3_neg (qa qb qc : R) :
  lattice_a3 (- qa) (- qb) (- qc) = - lattice_a3 qa qb qc.
Proof. unfold lattice_a3. ring. Qed.

Lemma lattice_arg_swap_ab (qa qb qc dnn d_factor : R) :
  lattice_arg qb qa qc dnn d_factor = lattice_arg qa qb qc dnn d_factor.
Proof.
  unfold lattice_arg.
  rewrite (lattice_a1_swap_ab qa qb qc), (lattice_a2_swap_ab qa qb qc),
    (lattice_a3_swap_ab qa qb qc).
  unfold square. plain_literals. field.
Qed.

Lemma lattice_arg_swap_ac (qa qb qc dnn d_factor : R) :
  lattice_arg qc qb qa dnn d_factor = lattice_arg qa qb qc dnn d_factor.
Proof.
  unfold lattice_arg.
  rewrite (lattice_a1_swap_ac qa qb qc), (lattice_a2_swap_ac qa qb qc),
    (lattice_a3_swap_ac qa qb qc).
  unfold square. plain_literals. field.
Qed.

Lemma lattice_arg_neg (qa qb qc dnn d_factor : R) :
  lattice_arg (- qa) (- qb) (- qc) dnn d_factor
  = lattice_arg qa qb qc dnn d_factor.
Proof.
  unfold lattice_arg.
  rewrite (lattice_a1_neg qa qb qc), (lattice_a2_neg qa qb qc),
    (lattice_a3_neg qa qb qc).
  unfold square. plain_literals. field.
Qed.

Lemma denominator_factor_neg (e h a : R) :
  denominator_factor e (h * - a) = denominator_factor e (h * a).
Proof.
  unfold denominator_factor.
  replace (h * - a) with (- (h * a)) by ring. now rewrite cos_neg.
Qed.

Lemma sq_bcc_swap_ab (qa qb qc dnn d_factor : R) :
  _sq_bcc qb qa qc dnn d_factor = _sq_bcc qa qb qc dnn d_factor.
Proof.
  unfold _sq_bcc.
  rewrite (lattice_arg_swap_ab qa qb qc), (lattice_a1_swap_ab qa qb qc),
    (lattice_a2_swap_ab qa qb qc), (lattice_a3_swap_ab qa qb qc).
  cbv zeta. f_equal. ring.
Qed.

Lemma sq_bcc_swap_ac (qa qb qc dnn d_factor : R) :
  _sq_bcc qc qb qa dnn d_factor = _sq_bcc qa qb qc dnn d_factor.
Proof.
  unfold _sq_bcc.
  rewrite (lattice_arg_swap_ac qa qb qc), (lattice_a1_swap_ac qa qb qc),
    (lattice_a2_swap_ac qa qb qc), (lattice_a3_swap_ac qa qb qc).
  cbv zeta. f_equal. ring.
Qed.

(** C10: for every [qa], [qb], [qc], [dnn] and [d_factor], the value of
    [_sq_bcc] is the same for each of the five other orders of its first
    three arguments, and for the three arguments negated together. *)
Theorem sq_bcc_permutation_negation_invariant (qa qb qc dnn d_factor : R) :
  _sq_bcc qb qa qc dnn d_factor = _sq_bcc qa qb qc dnn d_factor /\
  _sq_bcc qc qb qa dnn d_factor = _sq_bcc qa qb qc dnn d_factor /\
  _sq_bcc qa qc qb dnn d_factor = _sq_bcc qa qb qc dnn d_factor /\
  _sq_bcc qb qc qa dnn d_factor = _sq_bcc qa qb qc dnn d_factor /\
  _sq_bcc qc qa qb dnn d_factor = _sq_bcc qa qb qc dnn d_factor /\
  _sq_bcc (- qa) (- qb) (- qc) dnn d_factor = _sq_bcc qa qb qc dnn d_factor.
Proof.
  repeat split.
  - apply sq_bcc_swap_ab.
  - apply sq_bcc_swap_ac.
  - rewrite (sq_bcc_swap_ab qc qa qb), (sq_bcc_swap_ac qb qa qc).
    apply sq_bcc_swap_ab.
  - rewrite (sq_bcc_swap_ab qc qb qa). apply sq_bcc_swap_ac.
  - rewrite (sq_bcc_swap_ac qb qa qc). apply sq_bcc_swap_ab.
  - unfold _sq_bcc.
    rewrite (lattice_arg_neg qa qb qc), (lattice_a1_neg qa qb qc),
      (lattice_a2_neg qa qb qc), (lattice_a3_neg qa qb qc).
    cbv zeta. now rewrite !denominator_factor_neg.
Qed.

End BccClaims.

(** ** BCC lattice sum: the two forms of the source *)

Module BccForms.
Import Bcc.

Lemma exp_neg_double (a : R) : exp (- 2.0 * a) = exp (- a) * exp (- a).
Proof.
  rewrite <- exp_plus. f_equal. lra.
Qed.

Lemma exp_of_neg (a : R) : exp a = / exp (- a).
Proof.
  rewrite exp_Ropp, Rinv_inv. reflexivity.
Qed.

(** One factor of the alternate form, written with [e = exp(-arg)]. *)
Lemma sinh_cosh_factor (a x : R) :
  denominator_factor (exp (- a)) x <> 0 ->
  sinh a / (cosh a - cos x)
  = (1 - exp (- a) * exp (- a)) / denominator_factor (exp (- a)) x.
Proof.
  unfold denominator_factor, sinh, cosh.
  rewrite (exp_of_neg a).
  pose proof (exp_pos (- a)) as He.
  set (e := exp (- a)) in *. set (c := cos x).
  plain_literals. intros HD.
  assert (Hc : (/ e + e) / 2 - c = ((e - 2 * c) * e + 1) / (2 * e))
    by (field; lra).
  rewrite Hc. field. split; [exact HD | lra].
Qed.

(** The denominator factors are positive as soon as [arg] is. *)
Lemma denominator_factor_pos (a x : R) :
  0 < a -> 0 < denominator_factor (exp (- a)) x.
Proof.
  intros Ha. unfold denominator_factor. plain_literals.
  pose proof (exp_pos (- a)) as He.
  assert (He1 : exp (- a) < 1).
  { rewrite <- exp_0. apply exp_increasing. lra. }
  pose proof (COS_bound x) as [_ Hc].
  set (e := exp (- a)) in *. set (c := cos x) in *.
  nra.
Qed.

(** C3: for every [qa], [qb], [qc], [dnn] and [d_factor] for which the
    three factors of the denominator are non-zero, the compiled form of
    [_sq_bcc], built on [expm1] and [exp], and the alternate form of the
    source, built on [sinh] and [cosh], are equal over the reals. *)
Theorem sq_bcc_forms_agree (qa qb qc dnn d_factor : R) :
  let exp_arg := exp (- lattice_arg qa qb qc dnn d_factor) in
  let half_dnn := 0.5 * dnn in
  denominator_factor exp_arg (half_dnn * lattice_a1 qa qb qc) <> 0 ->
  denominator_factor exp_arg (half_dnn * lattice_a2 qa qb qc) <> 0 ->
  denominator_factor exp_arg (half_dnn * lattice_a3 qa qb qc) <> 0 ->
  _sq_bcc qa qb qc dnn d_factor = _sq_bcc_alt qa qb qc dnn d_factor.
Proof.
  intros exp_arg half_dnn H1 H2 H3.
  unfold _sq_bcc, _sq_bcc_alt. cbv zeta.
  fold half_dnn. fold exp_arg.
  set (a := lattice_arg qa qb qc dnn d_factor) in *.
  set (x1 := half_dnn * lattice_a1 qa qb qc) in *.
  set (x2 := half_dnn * lattice_a2 qa qb qc) in *.
  set (x3 := half_dnn * lattice_a3 qa qb qc) in *.
  transitivity
    (sinh a / (cosh a - cos x1) * (sinh a / (cosh a - cos x2))
     * (sinh a / (cosh a - cos x3))).
  2: { unfold Rdiv. ring. }
  subst exp_arg.
  rewrite (sinh_cosh_factor a x1 H1), (sinh_cosh_factor a x2 H2),
    (sinh_cosh_factor a x3 H3).
  unfold expm1, cube. rewrite exp_neg_double.
  set (e := exp (- a)) in *.
  set (D1 := denominator_factor e x1) in *.
  set (D2 := denominator_factor e x2) in *.
  set (D3 := denominator_factor e x3) in *.
  field. auto.
Qed.

Lemma sq_bcc_forms_agree_witness :
  _sq_bcc 1 0 0 2 1 = _sq_bcc_alt 1 0 0 2 1.
Proof.
  assert (Harg : 0 < lattice_arg 1 0 0 2 1).
  { unfold lattice_arg, lattice_a1, lattice_a2, lattice_a3, square.
    plain_literals. lra. }
  apply (sq_bcc_forms_agree 1 0 0 2 1);
    apply Rgt_not_eq, Rlt_gt, denominator_factor_pos, Harg.
Defined.

End BccForms.

(** ** BCC orientation average *)

Module BccAverage.
Import Bcc.

(** A loop that adds [g i] to an accumulator for [i] from 0 to [n] computes
    the sum of the [g i]. *)
Lemma accumulate_sum (g : nat -> R) (n : nat) (start : R) :
  fold_left (fun acc i => acc + g i) (seq 0 (S n)) start
  = start + sum_f_R0 g n.
Proof.
  induction n as [| n IH].
  - reflexivity.
  - rewrite seq_S, fold_left_app, IH. cbn [fold_left sum_f_R0 Nat.add].
    ring.
Qed.

Section Average.

Variable sphere_volume : R -> R.
Variable sphere_form : R -> R -> R -> R -> R.
Variable Gauss150Z : list R.
Variable Gauss150Wt : list R.

(** The loop over [j] is the quadrature sum over phi of [_sq_bcc]. *)
Lemma inner_loop_sum (qab qc dnn d_factor : R) :
  fold_left (inner_step Gauss150Z Gauss150Wt qab qc dnn d_factor)
    (seq 0 150) 0.0
  = gauss150 Gauss150Z Gauss150Wt (fun zp =>
      let phi := angle PI PI zp in
      _sq_bcc (qab * cos phi) (qab * sin phi) qc dnn d_factor).
Proof.
  unfold gauss150.
  rewrite <- (Rplus_0_l (sum_f_R0 _ 149)), <- lit_zero.
  exact (accumulate_sum
    (fun j => slot Gauss150Wt j *
       _sq_bcc (qab * cos (slot Gauss150Z j * PI + PI))
               (qab * sin (slot Gauss150Z j * PI + PI)) qc dnn d_factor)
    149 0.0).
Qed.

(** The loop over [i] is the quadrature sum over theta of the scaled inner
    sum times [sin(theta)]. *)
Lemma outer_loop_sum (q dnn d_factor : R) :
  fold_left (outer_step Gauss150Z Gauss150Wt q dnn d_factor) (seq 0 150) 0.0
  = gauss150 Gauss150Z Gauss150Wt (fun zt =>
      let theta := angle (PI / 2) (PI / 2) zt in
      PI *
      gauss150 Gauss150Z Gauss150Wt (fun zp =>
        let phi := angle PI PI zp in
        _sq_bcc (q * sin theta * cos phi) (q * sin theta * sin phi)
          (q * cos theta) dnn d_factor)
      * sin theta).
Proof.
  unfold gauss150 at 1.
  rewrite <- (Rplus_0_l (sum_f_R0 _ 149)), <- lit_zero.
  transitivity (0.0 + sum_f_R0 (fun i =>
    let theta := slot Gauss150Z i * (PI / 2) + PI / 2 in
    slot Gauss150Wt i *
    (fold_left
       (inner_step Gauss150Z Gauss150Wt (q * sin theta) (q * cos theta)
          dnn d_factor) (seq 0 150) 0.0 * PI) * sin theta) 149).
  - exact (accumulate_sum _ 149 0.0).
  - f_equal. apply sum_eq. intros i _. cbv zeta.
    rewrite inner_loop_sum. unfold angle. cbv zeta. ring.
Qed.

(** C4: [Iq(q, dnn, d_factor, radius, sld, solvent_sld)] is
    [_bcc_volume_fraction(radius, dnn)] times
    [sphere_form(q, radius, sld, solvent_sld)] times [Sq], where [Sq] is the
    double 150-point Gauss-Legendre sum over theta in [0, pi] and phi in
    [0, 2 pi] of [_sq_bcc] at
    [(q sin(theta) cos(phi), q sin(theta) sin(phi), q cos(theta))], the inner
    sum scaled by pi, the outer terms weighted by [sin(theta)], the outer sum
    scaled by [pi/2], and the whole divided by [4 pi]. *)
Theorem Iq_is_volume_fraction_form_average
    (q dnn d_factor radius sld solvent_sld : R) :
  Iq sphere_volume sphere_form Gauss150Z Gauss150Wt
    q dnn d_factor radius sld solvent_sld
  = _bcc_volume_fraction sphere_volume radius dnn
    * sphere_form q radius sld solvent_sld
    * powder_average Gauss150Z Gauss150Wt q dnn d_factor.
Proof.
  unfold Iq, powder_average. cbv zeta.
  rewrite outer_loop_sum. rewrite lit_four.
  f_equal. unfold Rdiv. ring.
Qed.

End Average.
End BccAverage.

(** ** Hyperbolic functions near zero *)

Module HyperbolicFacts.
Import Hyperbolic.

Lemma cosh_ge_1 (x : R) : 1 <= cosh x.
Proof.
  unfold cosh. rewrite exp_Ropp.
  pose proof (exp_pos x) as He. set (e := exp x) in *.
  assert (H : / e + e - 2 = (e - 1) * (e - 1) / e) by (field; lra).
  assert (0 <= (e - 1) * (e - 1) / e).
  { apply Rmult_le_pos; [apply Rle_0_sqr | left; now apply Rinv_0_lt_compat]. }
  lra.
Qed.

Lemma cosh_le_2 (x : R) : 0 <= x <= 1 -> cosh x <= 2.
Proof.
  intros [H0 H1]. unfold cosh.
  assert (exp x <= 3).
  { apply Rle_trans with (exp 1); [| exact exp_le_3].
    destruct H1 as [H1 | ->]; [left; now apply exp_increasing | right; reflexivity]. }
  assert (exp (- x) <= 1).
  { rewrite <- exp_0.
    destruct H0 as [H0 | <-].
    - left. apply exp_increasing. lra.
    - right. f_equal. lra. }
  lra.
Qed.

Lemma sinh_pos (x : R) : 0 < x -> 0 < sinh x.
Proof. intros Hx. rewrite <- sinh_0. now apply sinh_lt. Qed.

Lemma mix_0 (al be ga : R) : mix al be ga 0 = 0.
Proof. unfold mix. rewrite sinh_0. ring. Qed.

Lemma derivable_pt_lim_mix (al be ga c : R) :
  derivable_pt_lim (mix al be ga) c (mix_deriv al be ga c).
Proof.
  pose proof (derivable_pt_lim_id c) as Hid.
  pose proof (derivable_pt_lim_cosh c) as Hcosh.
  pose proof (derivable_pt_lim_sinh c) as Hsinh.
  pose proof (derivable_pt_lim_scal _ al _ _ Hid) as Hal.
  pose proof (derivable_pt_lim_mult _ _ _ _ _ Hal Hcosh) as Hleft.
  pose proof (derivable_pt_lim_mult _ _ _ _ _ Hid Hid) as Hsq.
  pose proof (derivable_pt_lim_scal _ ga _ _ Hsq) as Hga.
  pose proof (derivable_pt_lim_plus _ _ _ _ _
                (derivable_pt_lim_const be c) Hga) as Hpoly.
  pose proof (derivable_pt_lim_mult _ _ _ _ _ Hpoly Hsinh) as Hright.
  pose proof (derivable_pt_lim_plus _ _ _ _ _ Hleft Hright) as Hall.
  eapply derivable_pt_lim_ext; [| 
    replace (mix_deriv al be ga c) with
      (al * 1 * cosh c + mult_real_fct al id c * sinh c
       + ((0 + ga * (1 * id c + id c * 1)) * sinh c
          + (fct_cte be + mult_real_fct ga (id * id))%F c * cosh c));
    [exact Hall |] ].
  - intros y. unfold mix, plus_fct, mult_fct, mult_real_fct, fct_cte, id.
    ring.
  - unfold mix_deriv, plus_fct, mult_fct, mult_real_fct, fct_cte, id. ring.
Qed.

(** A function with a non-negative derivative on [(0, x)] does not fall
    below its value at 0. *)
Lemma mix_nonneg (al be ga x : R) :
  0 <= x ->
  (forall c, 0 < c < x -> 0 <= mix_deriv al be ga c) ->
  0 <= mix al be ga x.
Proof.
  intros [Hx | <-] Hder; [| rewrite mix_0; lra].
  destruct (MVT_cor2 (mix al be ga) (mix_deriv al be ga) 0 x Hx) as
    [c [Heq Hc]].
  { intros c _. apply derivable_pt_lim_mix. }
  rewrite mix_0 in Heq. specialize (Hder c Hc).
  assert (0 <= mix_deriv al be ga c * (x - 0)) by (apply Rmult_le_pos; lra).
  lra.
Qed.

(** [sinh(x) <= x cosh(x)], that is [tanh(x) <= x], for [x >= 0]. *)
Lemma sinh_le_x_cosh (x : R) : 0 <= x -> sinh x <= x * cosh x.
Proof.
  intros Hx. pose proof (mix_nonneg 1 (-1) 0 x Hx) as H.
  unfold mix, mix_deriv in H.
  assert (0 <= 1 * x * cosh x + (-1 + 0 * x * x) * sinh x); [| lra].
  apply H. intros c Hc. pose proof (sinh_pos c (proj1 Hc)).
  replace ((1 + -1 + 0 * c * c) * cosh c + (1 + 2 * 0) * c * sinh c)
    with (c * sinh c) by ring.
  apply Rmult_le_pos; lra.
Qed.

(** [3 x cosh(x) <= (3 + x^2) sinh(x)] for [x >= 0]. *)
Lemma coth_upper (x : R) :
  0 <= x -> 3 * x * cosh x <= 3 * sinh x + x * x * sinh x.
Proof.
  intros Hx. pose proof (mix_nonneg (-3) 3 1 x Hx) as H.
  unfold mix, mix_deriv in H.
  assert (0 <= -3 * x * cosh x + (3 + 1 * x * x) * sinh x); [| lra].
  apply H. intros c Hc.
  pose proof (sinh_le_x_cosh c (Rlt_le _ _ (proj1 Hc))).
  replace ((-3 + 3 + 1 * c * c) * cosh c + (-3 + 2 * 1) * c * sinh c)
    with (c * (c * cosh c - sinh c)) by ring.
  apply Rmult_le_pos; lra.
Qed.

(** [(1 - eps) x cosh(x) <= sinh(x)] on a small interval to the right
    of 0. *)
Lemma sinh_ge_x_cosh (eps x : R) :
  0 <= eps <= 1 -> 0 <= x <= 1 -> 2 * (x * x) <= eps ->
  (1 - eps) * x * cosh x <= sinh x.
Proof.
  intros Heps Hx Hsmall.
  pose proof (mix_nonneg (- (1 - eps)) 1 0 x (proj1 Hx)) as H.
  unfold mix, mix_deriv in H.
  assert (0 <= - (1 - eps) * x * cosh x + (1 + 0 * x * x) * sinh x); [| lra].
  apply H. intros c Hc.
  pose proof (cosh_ge_1 c) as Hc1.
  assert (Hc2 : cosh c <= 2) by (apply cosh_le_2; lra).
  pose proof (sinh_le_x_cosh c (Rlt_le _ _ (proj1 Hc))) as Hs.
  pose proof (sinh_pos c (proj1 Hc)) as Hs0.
  assert (Hcs : c * sinh c <= c * (c * cosh c))
    by (apply Rmult_le_compat_l; lra).
  assert (Hcc : c * c * cosh c <= c * c * 2)
    by (apply Rmult_le_compat_l; [nra | lra]).
  assert (Hxx : c * c <= x * x) by nra.
  assert (Hec : eps <= eps * cosh c) by nra.
  assert (Hes : 0 <= eps * (c * sinh c)).
  { apply Rmult_le_pos; [lra |]. apply Rmult_le_pos; lra. }
  replace ((- (1 - eps) + 1 + 0 * c * c) * cosh c
           + (- (1 - eps) + 2 * 0) * c * sinh c)
    with (eps * cosh c - c * sinh c + eps * (c * sinh c)) by ring.
  lra.
Qed.

(** [(1 + k x^2) sinh(x) <= x cosh(x)] on a small interval to the right of
    0, for [k] below one third. *)
Lemma coth_lower (k eps x : R) :
  0 <= k -> k <= (1 - 2 * k) * (1 - eps) ->
  0 <= eps <= 1 -> 0 <= x <= 1 -> 2 * (x * x) <= eps ->
  sinh x + k * (x * x) * sinh x <= x * cosh x.
Proof.
  intros Hk Hke Heps Hx Hsmall.
  pose proof (mix_nonneg 1 (-1) (- k) x (proj1 Hx)) as H.
  unfold mix, mix_deriv in H.
  assert (0 <= 1 * x * cosh x + (-1 + - k * x * x) * sinh x); [| lra].
  apply H. intros c Hc.
  pose proof (cosh_ge_1 c) as Hc1.
  assert (Hxx : c * c <= x * x) by nra.
  assert (Hs : (1 - eps) * c * cosh c <= sinh c)
    by (apply sinh_ge_x_cosh; lra).
  assert (Hcc : 0 <= c * cosh c) by (apply Rmult_le_pos; lra).
  assert (H12 : 0 <= 1 - 2 * k) by nra.
  assert (H1 : (1 - 2 * k) * ((1 - eps) * c * cosh c)
               <= (1 - 2 * k) * sinh c)
    by (apply Rmult_le_compat_l; lra).
  assert (H2 : k * (c * cosh c) <= (1 - 2 * k) * (1 - eps) * (c * cosh c))
    by (apply Rmult_le_compat_r; lra).
  replace ((1 + -1 + - k * c * c) * cosh c + (1 + 2 * - k) * c * sinh c)
    with (c * ((1 - 2 * k) * sinh c - k * (c * cosh c))) by ring.
  apply Rmult_le_pos; [lra |].
  replace ((1 - 2 * k) * ((1 - eps) * c * cosh c))
    with ((1 - 2 * k) * (1 - eps) * (c * cosh c)) in H1 by ring.
  lra.
Qed.

Lemma inv_tanh (x : R) : 0 < x -> 1 / tanh x = cosh x / sinh x.
Proof.
  intros Hx. unfold tanh.
  pose proof (sinh_pos x Hx). pose proof (cosh_ge_1 x).
  field. split; lra.
Qed.

(** The closed form [1/tanh(x) - 1/x] lies below [x/3] for [x > 0]. *)
Lemma closed_form_upper (x : R) : 0 < x -> 1 / tanh x - 1 / x <= x / 3.
Proof.
  intros Hx. rewrite (inv_tanh x Hx).
  pose proof (sinh_pos x Hx) as Hs.
  pose proof (coth_upper x (Rlt_le _ _ Hx)) as Hu.
  assert (Heq : cosh x / sinh x - 1 / x - x / 3
                = - ((3 * sinh x + x * x * sinh x - 3 * x * cosh x)
                     * / (3 * x * sinh x))) by (field; lra).
  assert (Hpos : 0 < / (3 * x * sinh x)).
  { apply Rinv_0_lt_compat. apply Rmult_lt_0_compat; lra. }
  assert (0 <= (3 * sinh x + x * x * sinh x - 3 * x * cosh x)
               * / (3 * x * sinh x))
    by (apply Rmult_le_pos; lra).
  lra.
Qed.

(** The closed form lies above [k x] on a small interval to the right of
    0. *)
Lemma closed_form_lower (k eps x : R) :
  0 <= k -> k <= (1 - 2 * k) * (1 - eps) ->
  0 <= eps <= 1 -> 0 < x <= 1 -> 2 * (x * x) <= eps ->
  k * x <= 1 / tanh x - 1 / x.
Proof.
  intros Hk Hke Heps Hx Hsmall. rewrite (inv_tanh x (proj1 Hx)).
  pose proof (sinh_pos x (proj1 Hx)) as Hs.
  assert (Hl : sinh x + k * (x * x) * sinh x <= x * cosh x)
    by (apply (coth_lower k eps); lra).
  assert (Heq : cosh x / sinh x - 1 / x - k * x
                = (x * cosh x - (sinh x + k * (x * x) * sinh x))
                  * / (x * sinh x)) by (field; lra).
  assert (Hpos : 0 < / (x * sinh x)).
  { apply Rinv_0_lt_compat. apply Rmult_lt_0_compat; lra. }
  assert (0 <= (x * cosh x - (sinh x + k * (x * x) * sinh x))
               * / (x * sinh x))
    by (apply Rmult_le_pos; lra).
  lra.
Qed.

End HyperbolicFacts.

(** ** Langevin function: the claims *)

Module LangevinClaims.
Import Langevin HyperbolicFacts.

Lemma langevin_small (x : R) : x < 0.00001 -> langevin x = x / 3.
Proof.
  intros Hx. unfold langevin.
  destruct (Rlt_dec x 0.00001) as [_ | Hn]; [lra | contradiction].
Qed.

Lemma langevin_closed (x : R) :
  0.00001 <= x -> langevin x = 1 / tanh x - 1 / x.
Proof.
  intros Hx. unfold langevin.
  destruct (Rlt_dec x 0.00001) as [Hn | _]; [lra |].
  now rewrite lit_one.
Qed.

Lemma langevinoverx_small (x : R) : x < 0.00001 -> langevinoverx x = 1 / 3.
Proof.
  intros Hx. unfold langevinoverx.
  destruct (Rlt_dec x 0.00001) as [_ | Hn]; [lra | contradiction].
Qed.

Lemma langevinoverx_closed (x : R) :
  0.00001 <= x -> langevinoverx x = langevin x / x.
Proof.
  intros Hx. unfold langevinoverx.
  destruct (Rlt_dec x 0.00001) as [Hn | _]; [lra | reflexivity].
Qed.

(** The closed-form branch at the boundary, between two multiples of the
    boundary value. *)
Lemma langevin_boundary_bounds :
  (1 - 0.0000001) * (0.00001 / 3) <= langevin 0.00001 <= 0.00001 / 3.
Proof.
  rewrite langevin_closed by lra. split.
  - replace ((1 - 0.0000001) * (0.00001 / 3))
      with ((1 - 0.0000001) / 3 * 0.00001) by lra.
    apply (closed_form_lower ((1 - 0.0000001) / 3) 0.0000002); lra.
  - apply closed_form_upper. lra.
Qed.

(** C9: [langevin] returns [x/3] for [x < 0.00001] and [1/tanh(x) - 1/x]
    otherwise, so [langevin(x)] tends to [x/3] as [x] tends to 0;
    [langevinoverx] returns [1/3] for [x < 0.00001] and [langevin(x)/x]
    otherwise, so [langevin(x)/x] tends to [1/3] as [x] tends to 0; and at
    the boundary [x = 0.00001] the closed form and the small-argument value
    differ by a relative error below [1e-6], for both functions. *)
Theorem langevin_small_argument_limit_and_boundary :
  (forall x, x < 0.00001 -> langevin x = x / 3) /\
  (forall x, 0.00001 <= x -> langevin x = 1 / tanh x - 1 / x) /\
  (forall x, x < 0.00001 -> langevinoverx x = 1 / 3) /\
  (forall x, 0.00001 <= x -> langevinoverx x = langevin x / x) /\
  limit1_in (fun x => langevin x - x / 3) (fun _ => True) 0 0 /\
  limit1_in (fun x => langevin x / x) (fun x => x <> 0) (1 / 3) 0 /\
  limit1_in langevinoverx (fun _ => True) (1 / 3) 0 /\
  Rabs (langevin 0.00001 - 0.00001 / 3) < 0.000001 * (0.00001 / 3) /\
  Rabs (langevinoverx 0.00001 - 1 / 3) < 0.000001 * (1 / 3).
Proof.
  assert (Hnear : forall x alp, Rdist x 0 < alp -> alp = 0.00001 ->
                    x < 0.00001).
  { intros x alp Hd ->. unfold Rdist in Hd.
    rewrite Rminus_0_r in Hd. apply Rabs_def2 in Hd. lra. }
  split; [exact langevin_small |].
  split; [exact langevin_closed |].
  split; [exact langevinoverx_small |].
  split; [exact langevinoverx_closed |].
  split; [| split; [| split; [| split]]].
  - intros eps Heps. exists 0.00001. split; [lra |].
    intros x [_ Hd]. cbn in Hd |- *.
    rewrite langevin_small by (eapply Hnear; eauto).
    unfold Rdist. rewrite Rminus_diag, Rminus_0_r, Rabs_R0. exact Heps.
  - intros eps Heps. exists 0.00001. split; [lra |].
    intros x [Hx Hd]. cbn in Hd |- *.
    rewrite langevin_small by (eapply Hnear; eauto).
    replace (x / 3 / x) with (1 / 3) by (field; exact Hx).
    unfold Rdist. rewrite Rminus_diag, Rabs_R0. exact Heps.
  - intros eps Heps. exists 0.00001. split; [lra |].
    intros x [_ Hd]. cbn in Hd |- *.
    rewrite langevinoverx_small by (eapply Hnear; eauto).
    unfold Rdist. rewrite Rminus_diag, Rabs_R0. exact Heps.
  - pose proof langevin_boundary_bounds as [Hlo Hhi].
    apply Rabs_def1; lra.
  - pose proof langevin_boundary_bounds as [Hlo Hhi].
    rewrite langevinoverx_closed by lra.
    apply Rabs_def1; lra.
Qed.

End LangevinClaims.

(** ** Spin weights: further properties *)

Module SpinWeightsMore.
Import SpinWeights SpinWeightsFacts.

Lemma clip_abs_le (x : R) : clip (Rabs x) 0.0 1.0 <= Rabs x.
Proof.
  pose proof (Rabs_pos x). unfold clip.
  destruct (Rlt_dec (Rabs x) 0.0); [lra |].
  destruct (Rgt_dec (Rabs x) 1.0); lra.
Qed.

Lemma clamped_out_range (o : R) : 0 <= clamped_out o <= 1.
Proof.
  unfold clamped_out.
  pose proof (clip_bounds (sqrt (square o)) 0.0 1.0). lra.
Qed.

Lemma clamped_in_range (i : R) : 0 <= clamped_in i <= 1.
Proof.
  unfold clamped_in.
  pose proof (clip_bounds (sqrt (square i)) 0.0 1.0). lra.
Qed.

(** For every real [out_spin] the normalisation is at least 0.5 in absolute
    value: [set_weights] never divides by zero. *)
Theorem set_weights_norm_never_zero (out_spin : R) :
  0.5 <= Rabs (set_weights_norm out_spin) /\ set_weights_norm out_spin <> 0.
Proof.
  assert (H : 0.5 <= Rabs (set_weights_norm out_spin)).
  { unfold set_weights_norm.
    pose proof (clamped_out_range out_spin) as Hr.
    destruct (Rlt_dec (clamped_out out_spin) 0.5) as [Hlt | Hge].
    - rewrite Rabs_pos_eq; lra.
    - unfold clamped_out in Hge. rewrite sqrt_square_abs in Hge.
      pose proof (clip_abs_le out_spin). lra. }
  split; [exact H |].
  intros Hz. rewrite Hz, Rabs_R0 in H. lra.
Qed.

(** The weights depend on [in_spin] only through its clamped absolute
    value: they are unchanged when [in_spin] is replaced by
    [clip(|in_spin|, 0, 1)] or by [-in_spin]. *)
Theorem set_weights_in_spin_clamped (in_spin out_spin : R) :
  set_weights (clamped_in in_spin) out_spin = set_weights in_spin out_spin /\
  set_weights (- in_spin) out_spin = set_weights in_spin out_spin.
Proof.
  split.
  - unfold set_weights.
    replace (clamped_in (clamped_in in_spin)) with (clamped_in in_spin);
      [reflexivity |].
    symmetry. apply clamped_unit. apply clamped_in_range.
  - unfold set_weights, clamped_in. now rewrite clamped_neg.
Qed.

(** For [-0.5 < out_spin <= 1] the normalisation is the one computed from
    the clamped [out_spin], and the eight weights are those of the
    documented algorithm. *)
Theorem set_weights_matches_description (in_spin out_spin : R) :
  -0.5 < out_spin <= 1 ->
  set_weights_norm out_spin = spec_norm out_spin /\
  set_weights in_spin out_spin = spec_weights in_spin out_spin.
Proof.
  intros Ho.
  assert (Hn : set_weights_norm out_spin = spec_norm out_spin).
  { unfold set_weights_norm, spec_norm.
    destruct (Rlt_dec (clamped_out out_spin) 0.5) as [Hlt | Hge];
      [reflexivity |].
    destruct (Rle_dec 0 out_spin) as [Hpos | Hneg].
    - unfold clamped_out. symmetry. apply clamped_unit. lra.
    - exfalso. apply Hge. unfold clamped_out.
      rewrite sqrt_square_abs, Rabs_left by lra.
      rewrite clip_id; lra. }
  split; [exact Hn |].
  unfold set_weights, spec_weights. now rewrite Hn.
Qed.

Lemma set_weights_matches_description_witness :
  set_weights_norm (-0.25) = spec_norm (-0.25) /\
  set_weights 0.75 (-0.25) = spec_weights 0.75 (-0.25).
Proof.
  apply (set_weights_matches_description 0.75 (-0.25)). lra.
Defined.

(** For [out_spin] in [0,1] and any [in_spin], each of the eight weights
    lies between 0 and 2. *)
Theorem set_weights_range (in_spin out_spin : R) :
  0 <= out_spin <= 1 ->
  Forall (fun w => 0 <= w <= 2) (set_weights in_spin out_spin).
Proof.
  intros Ho.
  pose proof (clamped_in_range in_spin) as Hi.
  assert (Hco : clamped_out out_spin = out_spin) by (apply clamped_unit; lra).
  assert (Hn : 1 / 2 <= set_weights_norm out_spin <= 1).
  { rewrite (norm_unit _ Ho). destruct (Rlt_dec out_spin 0.5); lra. }
  unfold set_weights. rewrite Hco.
  set (i := clamped_in in_spin) in *. set (n := set_weights_norm out_spin) in *.
  assert (Hinv : 1 <= / n <= 2).
  { split.
    - rewrite <- Rinv_1. apply Rinv_le_contravar; lra.
    - replace 2 with (/ (1 / 2)) by field.
      apply Rinv_le_contravar; lra. }
  assert (Hq : forall a, 0 <= a <= 1 -> 0 <= a / n <= 2).
  { intros a Ha. unfold Rdiv. split.
    - apply Rmult_le_pos; lra.
    - replace 2 with (1 * 2) by ring.
      apply Rmult_le_compat; lra. }
  assert (H00 : 0 <= (1.0 - i) * (1.0 - out_spin) <= 1) by (plain_literals; nra).
  assert (H11 : 0 <= i * out_spin <= 1) by nra.
  assert (H01 : 0 <= (1.0 - i) * out_spin <= 1) by (plain_literals; nra).
  assert (H10 : 0 <= i * (1.0 - out_spin) <= 1) by (plain_literals; nra).
  repeat (apply Forall_cons; [apply Hq; assumption |]). apply Forall_nil.
Qed.

Lemma set_weights_range_witness :
  Forall (fun w => 0 <= w <= 2) (set_weights 3 0.25).
Proof. apply (set_weights_range 3 0.25). lra. Defined.

(** For [in_spin] and [out_spin] in [0,1], replacing [in_spin] by
    [1 - in_spin] exchanges the weights of dd with ud and of uu with du, and
    replacing [out_spin] by [1 - out_spin] exchanges dd with du and uu with
    ud. *)
Theorem set_weights_flip (in_spin out_spin : R) :
  0 <= in_spin <= 1 ->
  0 <= out_spin <= 1 ->
  let w := set_weights in_spin out_spin in
  set_weights (1 - in_spin) out_spin =
    [slot w 6; slot w 7; slot w 4; slot w 5;
     slot w 2; slot w 3; slot w 0; slot w 1] /\
  set_weights in_spin (1 - out_spin) =
    [slot w 4; slot w 5; slot w 6; slot w 7;
     slot w 0; slot w 1; slot w 2; slot w 3].
Proof.
  intros Hi Ho w. subst w.
  assert (Hn : set_weights_norm (1 - out_spin) = set_weights_norm out_spin).
  { rewrite !norm_unit by lra.
    destruct (Rlt_dec (1 - out_spin) 0.5), (Rlt_dec out_spin 0.5); lra. }
  unfold set_weights, slot. cbn [nth]. rewrite Hn.
  unfold clamped_in, clamped_out.
  rewrite !clamped_unit by lra.
  set (n := set_weights_norm out_spin).
  split; repeat (apply f_equal2; [unfold Rdiv; f_equal; lra |]); reflexivity.
Qed.

Lemma set_weights_flip_witness :
  let w := set_weights 0.25 0.75 in
  set_weights (1 - 0.25) 0.75 =
    [slot w 6; slot w 7; slot w 4; slot w 5;
     slot w 2; slot w 3; slot w 0; slot w 1] /\
  set_weights 0.25 (1 - 0.75) =
    [slot w 4; slot w 5; slot w 6; slot w 7;
     slot w 0; slot w 1; slot w 2; slot w 3].
Proof. apply (set_weights_flip 0.25 0.75); lra. Defined.

End SpinWeightsMore.

(** ** Vector algebra: further properties *)

Module VecMore.
Import Vec.

Ltac vec_components :=
  repeat match goal with v : vec3 |- _ => destruct v end;
  unfold ORTH_VEC, ADD_VEC, SCALE_VEC, SCALAR_VEC, SET_VEC in *;
  cbn [c0 c1 c2] in *.

Lemma vec3_ext (a b : vec3) :
  c0 a = c0 b -> c1 a = c1 b -> c2 a = c2 b -> a = b.
Proof. destruct a, b. cbn. intros -> -> ->. reflexivity. Qed.


Lemma sum_squares_zero (a b c : R) :
  a * a + b * b + c * c = 0 -> a = 0 /\ b = 0 /\ c = 0.
Proof.
  intros H.
  pose proof (Rle_0_sqr a) as Ha. pose proof (Rle_0_sqr b) as Hb.
  pose proof (Rle_0_sqr c) as Hc. unfold Rsqr in *.
  assert (Ha0 : a * a = 0) by lra.
  assert (Hb0 : b * b = 0) by lra.
  assert (Hc0 : c * c = 0) by lra.
  repeat split; now apply Rsqr_0_uniq.
Qed.

Lemma sum_squares_nonneg (a b c : R) : 0 <= a * a + b * b + c * c.
Proof.
  pose proof (Rle_0_sqr a). pose proof (Rle_0_sqr b).
  pose proof (Rle_0_sqr c). unfold Rsqr in *. lra.
Qed.

(** [MAG_VEC] is non-negative, its square is the sum of the squares of the
    components, it is zero only for the zero vector, and scaling the
    components by [a] scales it by [|a|]. *)
Theorem MAG_VEC_norm (v0 v1 v2 a : R) :
  0 <= MAG_VEC v0 v1 v2 /\
  MAG_VEC v0 v1 v2 * MAG_VEC v0 v1 v2 = v0 * v0 + v1 * v1 + v2 * v2 /\
  (MAG_VEC v0 v1 v2 = 0 <-> v0 = 0 /\ v1 = 0 /\ v2 = 0) /\
  MAG_VEC (a * v0) (a * v1) (a * v2) = Rabs a * MAG_VEC v0 v1 v2.
Proof.
  unfold MAG_VEC, SCALAR_VEC, SET_VEC. cbn [c0 c1 c2].
  pose proof (sum_squares_nonneg v0 v1 v2) as Hs.
  split; [apply sqrt_pos |].
  split; [now apply sqrt_sqrt |].
  split.
  - split.
    + intros H. apply sum_squares_zero. now apply sqrt_eq_0.
    + intros (-> & -> & ->).
      replace (0 * 0 + 0 * 0 + 0 * 0) with 0 by ring. apply sqrt_0.
  - replace (a * v0 * (a * v0) + a * v1 * (a * v1) + a * v2 * (a * v2))
      with (Rsqr a * (v0 * v0 + v1 * v1 + v2 * v2)) by (unfold Rsqr; ring).
    rewrite sqrt_mult by (try apply Rle_0_sqr; exact Hs).
    now rewrite sqrt_Rsqr_abs.
Qed.

(** For [dot(v2,v2) != 0], [ORTH_VEC] removes [v2] itself entirely and
    leaves its own result unchanged when applied again. *)
Theorem ORTH_VEC_idempotent (v1 v2 : vec3) :
  SCALAR_VEC v2 v2 <> 0 ->
  ORTH_VEC v2 v2 = SET_VEC 0 0 0 /\
  ORTH_VEC (ORTH_VEC v1 v2) v2 = ORTH_VEC v1 v2.
Proof.
  intros Hnz. split; apply vec3_ext; vec_components; field; exact Hnz.
Qed.

Lemma ORTH_VEC_idempotent_witness :
  ORTH_VEC (SET_VEC 1 2 2) (SET_VEC 1 2 2) = SET_VEC 0 0 0 /\
  ORTH_VEC (ORTH_VEC (SET_VEC 3 0 1) (SET_VEC 1 2 2)) (SET_VEC 1 2 2)
  = ORTH_VEC (SET_VEC 3 0 1) (SET_VEC 1 2 2).
Proof.
  apply (ORTH_VEC_idempotent (SET_VEC 3 0 1) (SET_VEC 1 2 2)).
  unfold SCALAR_VEC, SET_VEC. cbn. lra.
Defined.

Lemma ORTH_VEC_scaled_direction (v1 v2 : vec3) (a : R) :
  a <> 0 ->
  SCALAR_VEC v2 v2 <> 0 ->
  ORTH_VEC v1 (SCALE_VEC v2 a) = ORTH_VEC v1 v2.
Proof.
  intros Ha Hnz.
  apply vec3_ext; vec_components; field; (split; [exact Hnz |]);
    match goal with
    | |- ?a * ?x * (?a * ?x) + ?a * ?y * (?a * ?y) + ?a * ?z * (?a * ?z) <> 0 =>
        replace (a * x * (a * x) + a * y * (a * y) + a * z * (a * z))
          with (a * a * (x * x + y * y + z * z)) by ring;
        repeat apply Rmult_integral_contrapositive_currified; assumption
    end.
Qed.

Lemma ORTH_VEC_divided_direction (v1 v2 : vec3) (a : R) :
  a <> 0 ->
  SCALAR_VEC v2 v2 <> 0 ->
  ORTH_VEC v1 (SET_VEC (c0 v2 / a) (c1 v2 / a) (c2 v2 / a)) = ORTH_VEC v1 v2.
Proof.
  intros Ha Hnz.
  rewrite <- (ORTH_VEC_scaled_direction v1 v2 (/ a))
    by (try apply Rinv_neq_0_compat; assumption).
  f_equal. apply vec3_ext; vec_components; unfold Rdiv; ring.
Qed.

(** The result of [ORTH_VEC] does not depend on the length or the sign of
    [v2]: multiplying [v2] by a non-zero factor, or dividing each of its
    components by one, leaves the result unchanged. *)
Theorem ORTH_VEC_rescale (v1 v2 : vec3) (a : R) :
  a <> 0 ->
  SCALAR_VEC v2 v2 <> 0 ->
  ORTH_VEC v1 (SCALE_VEC v2 a) = ORTH_VEC v1 v2 /\
  ORTH_VEC v1 (SET_VEC (c0 v2 / a) (c1 v2 / a) (c2 v2 / a)) = ORTH_VEC v1 v2.
Proof.
  intros Ha Hnz. split.
  - now apply ORTH_VEC_scaled_direction.
  - now apply ORTH_VEC_divided_direction.
Qed.

Lemma ORTH_VEC_rescale_witness :
  ORTH_VEC (SET_VEC 3 0 1) (SCALE_VEC (SET_VEC 1 2 2) (-5))
  = ORTH_VEC (SET_VEC 3 0 1) (SET_VEC 1 2 2) /\
  ORTH_VEC (SET_VEC 3 0 1)
    (SET_VEC (c0 (SET_VEC 1 2 2) / -5) (c1 (SET_VEC 1 2 2) / -5)
       (c2 (SET_VEC 1 2 2) / -5))
  = ORTH_VEC (SET_VEC 3 0 1) (SET_VEC 1 2 2).
Proof.
  apply (ORTH_VEC_rescale (SET_VEC 3 0 1) (SET_VEC 1 2 2) (-5)).
  - lra.
  - unfold SCALAR_VEC, SET_VEC. cbn. lra.
Defined.

(** [ORTH_VEC] is linear in its first vector. *)
Theorem ORTH_VEC_linear (u v w : vec3) (a : R) :
  ORTH_VEC (ADD_VEC u v) w = ADD_VEC (ORTH_VEC u w) (ORTH_VEC v w) /\
  ORTH_VEC (SCALE_VEC u a) w = SCALE_VEC (ORTH_VEC u w) a.
Proof.
  split; apply vec3_ext; vec_components; unfold Rdiv; ring.
Qed.

(** For [dot(v2,v2) != 0] the squared length of [v1] splits into the squared
    length of the remainder and the squared length of the removed
    projection, so the remainder is never longer than [v1]. *)
Theorem ORTH_VEC_pythagoras (v1 v2 : vec3) :
  SCALAR_VEC v2 v2 <> 0 ->
  let out := ORTH_VEC v1 v2 in
  SCALAR_VEC v1 v1
  = SCALAR_VEC out out
    + SCALAR_VEC v1 v2 * SCALAR_VEC v1 v2 / SCALAR_VEC v2 v2 /\
  SCALAR_VEC out out <= SCALAR_VEC v1 v1.
Proof.
  intros Hnz out.
  assert (Heq : SCALAR_VEC v1 v1
    = SCALAR_VEC out out
      + SCALAR_VEC v1 v2 * SCALAR_VEC v1 v2 / SCALAR_VEC v2 v2).
  { subst out. vec_components. field. exact Hnz. }
  split; [exact Heq |].
  assert (Hpos : 0 < SCALAR_VEC v2 v2).
  { destruct v2 as [b0 b1 b2]. unfold SCALAR_VEC in *. cbn [c0 c1 c2] in *.
    pose proof (sum_squares_nonneg b0 b1 b2). lra. }
  assert (0 <= SCALAR_VEC v1 v2 * SCALAR_VEC v1 v2 / SCALAR_VEC v2 v2).
  { unfold Rdiv. apply Rmult_le_pos.
    - apply Rle_0_sqr.
    - left. now apply Rinv_0_lt_compat. }
  lra.
Qed.

Lemma ORTH_VEC_pythagoras_witness :
  let v1 := SET_VEC 3 0 1 in
  let v2 := SET_VEC 1 2 2 in
  let out := ORTH_VEC v1 v2 in
  SCALAR_VEC v1 v1
  = SCALAR_VEC out out
    + SCALAR_VEC v1 v2 * SCALAR_VEC v1 v2 / SCALAR_VEC v2 v2 /\
  SCALAR_VEC out out <= SCALAR_VEC v1 v1.
Proof.
  apply (ORTH_VEC_pythagoras (SET_VEC 3 0 1) (SET_VEC 1 2 2)).
  unfold SCALAR_VEC, SET_VEC. cbn. lra.
Defined.

End VecMore.

(** ** Scattering vector and magnetic decomposition: further properties *)

Module MagneticMore.
Import Vec Magnetic VecMore.

(** [set_scatvec] keeps the length of the vector it rotates: the squared
    length of [qrot] is [q^2 (cos_theta^2 + sin_theta^2)], whatever the
    angles [alpha] and [beta]. *)
Theorem set_scatvec_length (q cos_theta sin_theta alpha beta : R) :
  let qrot := set_scatvec q cos_theta sin_theta alpha beta in
  SCALAR_VEC qrot qrot
  = q * q * (cos_theta * cos_theta + sin_theta * sin_theta) /\
  MAG_VEC (c0 qrot) (c1 qrot) (c2 qrot)
  = Rabs q * sqrt (cos_theta * cos_theta + sin_theta * sin_theta).
Proof.
  intros qrot.
  assert (Hs : SCALAR_VEC qrot qrot
               = q * q * (cos_theta * cos_theta + sin_theta * sin_theta)).
  { subst qrot. unfold set_scatvec, SCALAR_VEC. cbn [c0 c1 c2].
    pose proof (sin2_cos2 (alpha * PI / 180)) as Ha.
    pose proof (sin2_cos2 (beta * PI / 180)) as Hb.
    unfold Rsqr in Ha, Hb.
    set (sa := sin (alpha * PI / 180)) in *.
    set (ca := cos (alpha * PI / 180)) in *.
    set (sb := sin (beta * PI / 180)) in *.
    set (cb := cos (beta * PI / 180)) in *.
    transitivity
      (q * q * (cos_theta * cos_theta
                * (ca * ca + sa * sa * (sb * sb + cb * cb))
                + sin_theta * sin_theta * (sb * sb + cb * cb))); [ring |].
    rewrite Hb, Rmult_1_r, Rmult_1_r.
    replace (ca * ca + sa * sa) with (sa * sa + ca * ca) by ring.
    now rewrite Ha, Rmult_1_r. }
  split; [exact Hs |].
  unfold MAG_VEC. cbn zeta.
  replace (SET_VEC (c0 qrot) (c1 qrot) (c2 qrot)) with qrot
    by (now destruct qrot).
  rewrite Hs.
  rewrite sqrt_mult.
  - f_equal. apply sqrt_Rsqr_abs.
  - apply Rle_0_sqr.
  - pose proof (Rle_0_sqr cos_theta). pose proof (Rle_0_sqr sin_theta).
    unfold Rsqr in *. lra.
Qed.

(** The angles of [set_scatvec] are in degrees: adding 360 to [alpha] or to
    [beta] does not change the result. *)
Theorem set_scatvec_period (q cos_theta sin_theta alpha beta : R) :
  set_scatvec q cos_theta sin_theta (alpha + 360) beta
  = set_scatvec q cos_theta sin_theta alpha beta /\
  set_scatvec q cos_theta sin_theta alpha (beta + 360)
  = set_scatvec q cos_theta sin_theta alpha beta.
Proof.
  assert (Hd : forall a, (a + 360) * PI / 180 = a * PI / 180 + 2 * PI)
    by (intros a; field).
  assert (Hsin : forall a, sin ((a + 360) * PI / 180) = sin (a * PI / 180)).
  { intros a. rewrite Hd, sin_plus, sin_2PI, cos_2PI. ring. }
  assert (Hcos : forall a, cos ((a + 360) * PI / 180) = cos (a * PI / 180)).
  { intros a. rewrite Hd, cos_plus, sin_2PI, cos_2PI. ring. }
  unfold set_scatvec. now rewrite !Hsin, !Hcos.
Qed.

End MagneticMore.

Module MagSldMore.
Import Vec Magnetic VecMore.

(** The eight slots in terms of the two projected vectors. *)
Lemma mag_sld_slots (x y z mxreal mximag myreal myimag mzreal mzimag nuc : R) :
  let q := sqrt (x * x + y * y + z * z) in
  let vector := SET_VEC (x / q) (y / q) (z / q) in
  let Mr := ORTH_VEC (SET_VEC mxreal myreal mzreal) vector in
  let Mi := ORTH_VEC (SET_VEC mximag myimag mzimag) vector in
  mag_sld x y z mxreal mximag myreal myimag mzreal mzimag nuc
  = [ nuc - c2 Mr; c2 Mi; nuc + c2 Mr; - c2 Mi;
      c1 Mr + c0 Mi; c1 Mi - c0 Mr; c1 Mr - c0 Mi; c1 Mi + c0 Mr ].
Proof.
  intros q vector Mr Mi. unfold mag_sld. cbv zeta.
  fold q. fold vector. fold Mr. fold Mi.
  unfold SCALAR_VEC, SET_VEC. cbn [c0 c1 c2].
  repeat (apply f_equal2; [ring |]). reflexivity.
Qed.

Lemma direction_nonzero (x y z : R) :
  sqrt (x * x + y * y + z * z) <> 0 -> x * x + y * y + z * z <> 0.
Proof. intros Hq Hs. apply Hq. rewrite Hs. apply sqrt_0. Qed.

(** With a non-zero direction, the projection computed by [mag_sld] on the
    normalised direction is the projection on [(x, y, z)] itself. *)
Lemma mag_sld_projection (x y z : R) (M : vec3) :
  sqrt (x * x + y * y + z * z) <> 0 ->
  let q := sqrt (x * x + y * y + z * z) in
  ORTH_VEC M (SET_VEC (x / q) (y / q) (z / q)) = ORTH_VEC M (SET_VEC x y z).
Proof.
  intros Hq q.
  apply (ORTH_VEC_divided_direction M (SET_VEC x y z) q Hq).
  unfold SCALAR_VEC, SET_VEC. cbn [c0 c1 c2]. now apply direction_nonzero.
Qed.


(** A magnetisation parallel to a non-zero scattering direction does not
    scatter magnetically: with real part [a (x,y,z)] and imaginary part
    [b (x,y,z)], [mag_sld] writes [nuc] into the real slots of dd and uu and
    zero into the other slots. *)
Theorem mag_sld_parallel_magnetisation (x y z a b nuc : R) :
  sqrt (x * x + y * y + z * z) <> 0 ->
  mag_sld x y z (a * x) (b * x) (a * y) (b * y) (a * z) (b * z) nuc
  = [nuc; 0; nuc; 0; 0; 0; 0; 0].
Proof.
  intros Hq. rewrite mag_sld_slots. cbv zeta.
  rewrite !mag_sld_projection by exact Hq.
  assert (Hpar : forall k,
    ORTH_VEC (SET_VEC (k * x) (k * y) (k * z)) (SET_VEC x y z)
    = SET_VEC 0 0 0).
  { intros k. pose proof (direction_nonzero x y z Hq) as Hs.
    apply vec3_ext; unfold ORTH_VEC, SCALAR_VEC, SET_VEC; cbn [c0 c1 c2];
      field; exact Hs. }
  rewrite !Hpar. cbn [c0 c1 c2 SET_VEC].
  repeat (apply f_equal2; [ring |]). reflexivity.
Qed.

Lemma mag_sld_parallel_magnetisation_witness :
  mag_sld 3 0 4 (2 * 3) (5 * 3) (2 * 0) (5 * 0) (2 * 4) (5 * 4) 7
  = [7; 0; 7; 0; 0; 0; 0; 0].
Proof.
  apply (mag_sld_parallel_magnetisation 3 0 4 2 5 7).
  replace (3 * 3 + 0 * 0 + 4 * 4) with (5 * 5) by ring.
  rewrite sqrt_square; lra.
Defined.

(** For a scattering direction along the field axis ([x = y = 0],
    [z != 0]) the non-spin-flip slots carry [nuc] alone and the spin-flip
    slots are the combinations of the transverse components [mx], [my]. *)
Theorem mag_sld_along_field
    (z mxreal mximag myreal myimag mzreal mzimag nuc : R) :
  z <> 0 ->
  mag_sld 0 0 z mxreal mximag myreal myimag mzreal mzimag nuc
  = [ nuc; 0; nuc; 0;
      myreal + mximag; myimag - mxreal; myreal - mximag; myimag + mxreal ].
Proof.
  intros Hz.
  assert (Hq : sqrt (0 * 0 + 0 * 0 + z * z) <> 0).
  { replace (0 * 0 + 0 * 0 + z * z) with (Rsqr z) by (unfold Rsqr; ring).
    rewrite sqrt_Rsqr_abs. now apply Rabs_no_R0. }
  rewrite mag_sld_slots. cbv zeta.
  rewrite !mag_sld_projection by exact Hq.
  assert (Hax : forall m0 m1 m2,
    ORTH_VEC (SET_VEC m0 m1 m2) (SET_VEC 0 0 z) = SET_VEC m0 m1 0).
  { intros m0 m1 m2.
    apply vec3_ext; unfold ORTH_VEC, SCALAR_VEC, SET_VEC; cbn [c0 c1 c2];
      field; exact Hz. }
  rewrite !Hax. cbn [c0 c1 c2 SET_VEC].
  repeat (apply f_equal2; [ring |]). reflexivity.
Qed.

Lemma mag_sld_along_field_witness :
  mag_sld 0 0 (-2) 1 2 3 4 5 6 7
  = [ 7; 0; 7; 0; 3 + 2; 4 - 1; 3 - 2; 4 + 1 ].
Proof. apply (mag_sld_along_field (-2) 1 2 3 4 5 6 7). lra. Defined.

(** [mag_sld] depends on the direction of [(x, y, z)] only, not on its
    length or sign: multiplying the three coordinates by a non-zero factor
    leaves the eight slots unchanged. *)
Theorem mag_sld_direction_only
    (k x y z mxreal mximag myreal myimag mzreal mzimag nuc : R) :
  k <> 0 ->
  sqrt (x * x + y * y + z * z) <> 0 ->
  mag_sld (k * x) (k * y) (k * z) mxreal mximag myreal myimag mzreal mzimag
    nuc
  = mag_sld x y z mxreal mximag myreal myimag mzreal mzimag nuc.
Proof.
  intros Hk Hq.
  pose proof (direction_nonzero x y z Hq) as Hs.
  assert (Hkq : sqrt (k * x * (k * x) + k * y * (k * y) + k * z * (k * z))
                <> 0).
  { replace (k * x * (k * x) + k * y * (k * y) + k * z * (k * z))
      with (Rsqr k * (x * x + y * y + z * z)) by (unfold Rsqr; ring).
    rewrite sqrt_mult
      by (try apply Rle_0_sqr; apply sum_squares_nonneg).
    rewrite sqrt_Rsqr_abs.
    apply Rmult_integral_contrapositive_currified;
      [now apply Rabs_no_R0 | exact Hq]. }
  rewrite !mag_sld_slots. cbv zeta.
  rewrite !mag_sld_projection by assumption.
  assert (Hsc : forall M,
    ORTH_VEC M (SET_VEC (k * x) (k * y) (k * z)) = ORTH_VEC M (SET_VEC x y z)).
  { intros M.
    rewrite <- (ORTH_VEC_scaled_direction M (SET_VEC x y z) k Hk)
      by (unfold SCALAR_VEC, SET_VEC; cbn [c0 c1 c2]; exact Hs).
    reflexivity. }
  now rewrite !Hsc.
Qed.

Lemma mag_sld_direction_only_witness :
  mag_sld (-2 * 3) (-2 * 0) (-2 * 4) 1 2 3 4 5 6 7
  = mag_sld 3 0 4 1 2 3 4 5 6 7.
Proof.
  apply (mag_sld_direction_only (-2) 3 0 4 1 2 3 4 5 6 7).
  - lra.
  - replace (3 * 3 + 0 * 0 + 4 * 4) with (5 * 5) by ring.
    rewrite sqrt_square; lra.
Defined.

End MagSldMore.

(** ** Core-shell amplitude: further properties *)

Module CoreShellMore.
Import CoreShell CoreShellAux.



(** Adding 0.5 and converting rounds to the nearest count. *)
Lemma c_int_round (k : nat) (fp_n : R) :
  INR k - 0.5 <= fp_n < INR k + 0.5 -> c_int (fp_n + 0.5) = Z.of_nat k.
Proof.
  intros Hk. pose proof (pos_INR k) as Hpos.
  unfold c_int.
  destruct (Rle_dec 0 (fp_n + 0.5)) as [_ | Hn]; [| exfalso; apply Hn; lra].
  symmetry. apply Int_part_spec. rewrite <- INR_IZR_INZ. lra.
Qed.

Lemma shell_count_round (k : nat) (fp_n : R) :
  INR k - 0.5 <= fp_n < INR k + 0.5 -> shell_count fp_n = k.
Proof.
  intros Hk. unfold shell_count. rewrite (c_int_round k fp_n Hk).
  apply Nat2Z.id.
Qed.

Lemma loop_S {A : Type} (f : A -> nat -> A) (n : nat) (a : A) :
  fold_left f (seq 0 (S n)) a = f (fold_left f (seq 0 n) a) n.
Proof. rewrite seq_S, fold_left_app. reflexivity. Qed.

Section Loop.

Variable sas_3j1x_x : R -> R.

Lemma fq_core_shell_run (q sld_core radius sld_solvent fp_n : R)
    (sld thickness : list R) :
  fq_core_shell sas_3j1x_x q sld_core radius sld_solvent fp_n sld thickness
  = let st := loop_state sas_3j1x_x q sld_core radius sld thickness (shell_count fp_n) in
    acc_f st
    + M_4PI_3 * cube (acc_r st) * (sld_solvent - acc_last_sld st)
      * sas_3j1x_x (q * acc_r st).
Proof. reflexivity. Qed.

(** The radius after [n] passes is the core radius plus the first [n]
    thicknesses, whatever the scattering length densities. *)
Lemma run_radius (q sld_core radius : R) (sld thickness : list R) (n : nat) :
  acc_r (loop_state sas_3j1x_x q sld_core radius sld thickness n)
  = outer_radius radius thickness n.
Proof.
  unfold loop_state, outer_radius. induction n as [| n IH]; [reflexivity |].
  rewrite !loop_S. cbn [shell_step acc_r]. now rewrite IH.
Qed.

Lemma run_matching_core (q sld_core radius : R) (sld thickness : list R)
    (n : nat) :
  (forall i, (i < n)%nat -> slot sld i = sld_core) ->
  acc_f (loop_state sas_3j1x_x q sld_core radius sld thickness n) = 0 /\
  acc_last_sld (loop_state sas_3j1x_x q sld_core radius sld thickness n) = sld_core.
Proof.
  unfold loop_state. induction n as [| n IH]; intros Hs.
  - split; reflexivity.
  - destruct IH as [Hf Hl]; [intros i Hi; apply Hs; lia |].
    rewrite loop_S. cbn [shell_step acc_f acc_last_sld].
    rewrite Hf, Hl, Hs by lia. split; [ring | reflexivity].
Qed.

Lemma slot_map_shift (c : R) (sld : list R) (i : nat) :
  (i < length sld)%nat -> slot (map (fun s => s + c) sld) i = slot sld i + c.
Proof.
  intros Hi. unfold slot.
  rewrite (nth_indep _ 0 (0 + c)) by (now rewrite length_map).
  apply (map_nth (fun s => s + c)).
Qed.

Lemma run_shift (c q sld_core radius : R) (sld thickness : list R)
    (n : nat) :
  (n <= length sld)%nat ->
  let st := loop_state sas_3j1x_x q sld_core radius sld thickness n in
  let st' := loop_state sas_3j1x_x q (sld_core + c) radius (map (fun s => s + c) sld)
               thickness n in
  acc_f st' = acc_f st /\ acc_r st' = acc_r st /\
  acc_last_sld st' = acc_last_sld st + c.
Proof.
  unfold loop_state. induction n as [| n IH]; intros Hn; cbv zeta.
  - repeat split; reflexivity.
  - destruct IH as (Hf & Hr & Hl); [lia |]. cbv zeta in Hf, Hr, Hl.
    rewrite !loop_S. cbn [shell_step acc_f acc_r acc_last_sld].
    rewrite Hf, Hr, Hl, slot_map_shift by lia.
    repeat split; try reflexivity.
    f_equal. f_equal. f_equal. ring.
Qed.

Lemma slot_map_scale (k : R) (sld : list R) (i : nat) :
  slot (map (Rmult k) sld) i = k * slot sld i.
Proof.
  unfold slot. rewrite <- (Rmult_0_r k) at 1. apply (map_nth (Rmult k)).
Qed.

Lemma run_scale (k q sld_core radius : R) (sld thickness : list R)
    (n : nat) :
  let st := loop_state sas_3j1x_x q sld_core radius sld thickness n in
  let st' := loop_state sas_3j1x_x q (k * sld_core) radius (map (Rmult k) sld) thickness n in
  acc_f st' = k * acc_f st /\ acc_r st' = acc_r st /\
  acc_last_sld st' = k * acc_last_sld st.
Proof.
  unfold loop_state. induction n as [| n IH]; cbv zeta.
  - cbn. repeat split; ring.
  - destruct IH as (Hf & Hr & Hl). cbv zeta in Hf, Hr, Hl.
    rewrite !loop_S. cbn [shell_step acc_f acc_r acc_last_sld].
    rewrite Hf, Hr, Hl, slot_map_scale.
    repeat split; try reflexivity. ring.
Qed.



(** When the first [n] shells have the scattering length density of the
    core, [fq_core_shell] returns the amplitude of the uniform sphere whose
    radius is the core radius plus the [n] thicknesses. *)
Theorem fq_core_shell_shells_match_core
    (q sld_core radius sld_solvent fp_n : R) (sld thickness : list R) :
  (forall i, (i < shell_count fp_n)%nat -> slot sld i = sld_core) ->
  let r := outer_radius radius thickness (shell_count fp_n) in
  fq_core_shell sas_3j1x_x q sld_core radius sld_solvent fp_n sld thickness
  = M_4PI_3 * cube r * (sld_solvent - sld_core) * sas_3j1x_x (q * r).
Proof.
  intros Hs r. rewrite fq_core_shell_run. cbv zeta.
  destruct (run_matching_core q sld_core radius sld thickness _ Hs)
    as [Hf Hl].
  rewrite Hf, Hl, run_radius. fold r. ring.
Qed.

(** Only differences of scattering length densities enter: adding the same
    constant to the core, to the solvent and to each of the shells read by
    the loop leaves the amplitude unchanged. *)
Theorem fq_core_shell_contrast_shift
    (c q sld_core radius sld_solvent fp_n : R) (sld thickness : list R) :
  (shell_count fp_n <= length sld)%nat ->
  fq_core_shell sas_3j1x_x q (sld_core + c) radius (sld_solvent + c) fp_n
    (map (fun s => s + c) sld) thickness
  = fq_core_shell sas_3j1x_x q sld_core radius sld_solvent fp_n
      sld thickness.
Proof.
  intros Hn. rewrite !fq_core_shell_run. cbv zeta.
  destruct (run_shift c q sld_core radius sld thickness _ Hn)
    as (Hf & Hr & Hl). cbv zeta in Hf, Hr, Hl.
  rewrite Hf, Hr, Hl. f_equal. f_equal. f_equal. ring.
Qed.

(** The amplitude is homogeneous in the scattering length densities:
    multiplying the core, the solvent and every shell by [k] multiplies the
    result by [k]. *)
Theorem fq_core_shell_contrast_scale
    (k q sld_core radius sld_solvent fp_n : R) (sld thickness : list R) :
  fq_core_shell sas_3j1x_x q (k * sld_core) radius (k * sld_solvent) fp_n
    (map (Rmult k) sld) thickness
  = k * fq_core_shell sas_3j1x_x q sld_core radius sld_solvent fp_n
          sld thickness.
Proof.
  rewrite !fq_core_shell_run. cbv zeta.
  destruct (run_scale k q sld_core radius sld thickness (shell_count fp_n))
    as (Hf & Hr & Hl). cbv zeta in Hf, Hr, Hl.
  rewrite Hf, Hr, Hl. ring.
Qed.

End Loop.



Lemma fq_core_shell_shells_match_core_witness :
  let r := outer_radius 5 [17; 19] (shell_count 2) in
  fq_core_shell (fun x => x + 1) 2 3 5 7 2 [3; 3] [17; 19]
  = M_4PI_3 * cube r * (7 - 3) * (2 * r + 1).
Proof.
  assert (H2 : shell_count 2 = 2%nat).
  { apply shell_count_round. replace (INR 2) with 2 by (cbn; lra). lra. }
  apply (fq_core_shell_shells_match_core (fun x => x + 1) 2 3 5 7 2).
  rewrite H2. intros [| [| i]] Hi; [reflexivity | reflexivity | lia].
Defined.

Lemma fq_core_shell_contrast_shift_witness :
  fq_core_shell (fun x => x + 1) 2 (3 + 10) 5 (7 + 10) 2
    (map (fun s => s + 10) [11; 13]) [17; 19]
  = fq_core_shell (fun x => x + 1) 2 3 5 7 2 [11; 13] [17; 19].
Proof.
  apply (fq_core_shell_contrast_shift (fun x => x + 1) 10 2 3 5 7 2).
  assert (H2 : shell_count 2 = 2%nat).
  { apply shell_count_round. replace (INR 2) with 2 by (cbn; lra). lra. }
  rewrite H2. cbn. lia.
Defined.

End CoreShellMore.

(** ** Langevin function: further properties *)

Module LangevinMore.
Import Langevin HyperbolicFacts.

Lemma langevin_low (x : R) : x < 0.00001 -> langevin x = x / 3.
Proof.
  intros Hx. unfold langevin.
  destruct (Rlt_dec x 0.00001) as [_ | Hn]; [lra | contradiction].
Qed.

Lemma langevin_high (x : R) :
  0.00001 <= x -> langevin x = 1 / tanh x - 1 / x.
Proof.
  intros Hx. unfold langevin.
  destruct (Rlt_dec x 0.00001) as [Hn | _]; [lra |].
  now rewrite lit_one.
Qed.

(** The closed form is non-negative for [x > 0]. *)
Lemma closed_form_nonneg (x : R) : 0 < x -> 0 <= 1 / tanh x - 1 / x.
Proof.
  intros Hx. rewrite (inv_tanh x Hx).
  pose proof (sinh_pos x Hx) as Hs.
  pose proof (sinh_le_x_cosh x (Rlt_le _ _ Hx)) as Hle.
  assert (Heq : cosh x / sinh x - 1 / x
                = (x * cosh x - sinh x) * / (x * sinh x)) by (field; lra).
  rewrite Heq. apply Rmult_le_pos; [lra |].
  left. apply Rinv_0_lt_compat. apply Rmult_lt_0_compat; lra.
Qed.

(** The closed form stays below 1 for [x > 0]. *)
Lemma closed_form_lt_1 (x : R) : 0 < x -> 1 / tanh x - 1 / x < 1.
Proof.
  intros Hx. rewrite (inv_tanh x Hx).
  pose proof (sinh_pos x Hx) as Hs.
  assert (Hexp : 1 + 2 * x < exp x * exp x).
  { rewrite <- exp_plus. replace (x + x) with (2 * x) by ring.
    apply exp_ineq1. lra. }
  assert (Hnum : x * cosh x - sinh x - x * sinh x < 0).
  { unfold cosh, sinh in *. rewrite exp_Ropp in *.
    pose proof (exp_pos x) as He. set (E := exp x) in *.
    assert (Heq : x * ((E + / E) / 2) - (E - / E) / 2 - x * ((E - / E) / 2)
                  = - ((E * E - (1 + 2 * x)) * / (2 * E))) by (field; lra).
    rewrite Heq.
    assert (0 < (E * E - (1 + 2 * x)) * / (2 * E)); [| lra].
    apply Rmult_lt_0_compat; [lra |].
    apply Rinv_0_lt_compat. lra. }
  assert (Heq : cosh x / sinh x - 1 / x - 1
                = (x * cosh x - sinh x - x * sinh x) * / (x * sinh x))
    by (field; lra).
  assert (Hpos : 0 < / (x * sinh x)).
  { apply Rinv_0_lt_compat. apply Rmult_lt_0_compat; lra. }
  assert (0 < - (x * cosh x - sinh x - x * sinh x) * / (x * sinh x))
    by (apply Rmult_lt_0_compat; lra).
  replace ((x * cosh x - sinh x - x * sinh x) * / (x * sinh x))
    with (- (- (x * cosh x - sinh x - x * sinh x) * / (x * sinh x)))
    in Heq by ring.
  lra.
Qed.

(** For every [x], on either branch, [langevin(x)] is [x] times
    [langevinoverx(x)]. *)
Theorem langevin_is_x_times_langevinoverx (x : R) :
  langevin x = x * langevinoverx x.
Proof.
  unfold langevinoverx.
  destruct (Rlt_dec x 0.00001) as [Hlt | Hge].
  - rewrite (langevin_low x Hlt). lra.
  - apply Rnot_lt_le in Hge. field. lra.
Qed.

(** For [x >= 0], [langevin(x)] lies between 0 and [x/3] and below 1, and
    [langevinoverx(x)] lies between 0 and 1/3. *)
Theorem langevin_range (x : R) :
  0 <= x ->
  0 <= langevin x <= x / 3 /\ langevin x < 1 /\
  0 <= langevinoverx x <= 1 / 3.
Proof.
  intros Hx.
  assert (Hl : 0 <= langevin x <= x / 3 /\ langevin x < 1).
  { destruct (Rlt_dec x 0.00001) as [Hlt | Hge].
    - rewrite (langevin_low x Hlt). lra.
    - apply Rnot_lt_le in Hge. rewrite (langevin_high x Hge).
      assert (H0 : 0 < x) by lra.
      pose proof (closed_form_nonneg x H0).
      pose proof (closed_form_upper x H0).
      pose proof (closed_form_lt_1 x H0). lra. }
  destruct Hl as [[Hl0 Hl3] Hl1].
  split; [split; assumption |]. split; [exact Hl1 |].
  unfold langevinoverx.
  destruct (Rlt_dec x 0.00001) as [Hlt | Hge]; [lra |].
  apply Rnot_lt_le in Hge.
  assert (Hinv : 0 < / x) by (apply Rinv_0_lt_compat; lra).
  unfold Rdiv. split.
  - apply Rmult_le_pos; lra.
  - replace (1 * / 3) with (x / 3 * / x) by (field; lra).
    apply Rmult_le_compat_r; lra.
Qed.

Lemma langevin_range_witness :
  0 <= langevin 2 <= 2 / 3 /\ langevin 2 < 1 /\
  0 <= langevinoverx 2 <= 1 / 3.
Proof. apply (langevin_range 2). lra. Defined.

(** Negative arguments stay on the linear branch, so [langevin] is not an
    odd function: for [x >= 3], [langevin(-x)] is [-x/3], at most -1, while
    [-langevin(x)] is above -1. *)
Theorem langevin_not_odd (x : R) :
  3 <= x ->
  langevin (- x) = - x / 3 /\
  langevin (- x) <= -1 /\
  -1 < - langevin x.
Proof.
  intros Hx.
  assert (Hneg : langevin (- x) = - x / 3) by (apply langevin_low; lra).
  split; [exact Hneg |]. split; [rewrite Hneg; lra |].
  rewrite langevin_high by lra.
  assert (H0 : 0 < x) by lra.
  pose proof (closed_form_lt_1 x H0). lra.
Qed.

Lemma langevin_not_odd_witness :
  langevin (- 6) = - 6 / 3 /\ langevin (- 6) <= -1 /\ -1 < - langevin 6.
Proof. apply (langevin_not_odd 6). lra. Defined.

End LangevinMore.

(** ** BCC lattice sum: further properties *)

Module BccMore.
Import Bcc.

Lemma lattice_arg_nonneg (qa qb qc dnn d_factor : R) :
  0 <= lattice_arg qa qb qc dnn d_factor.
Proof.
  unfold lattice_arg, square. plain_literals. cbv zeta.
  pose proof (Rle_0_sqr (1 / 2 * dnn * d_factor)) as Hd.
  pose proof (Rle_0_sqr (lattice_a1 qa qb qc)) as H1.
  pose proof (Rle_0_sqr (lattice_a2 qa qb qc)) as H2.
  pose proof (Rle_0_sqr (lattice_a3 qa qb qc)) as H3.
  unfold Rsqr in *.
  apply Rmult_le_pos; [apply Rmult_le_pos; lra | lra].
Qed.

(** The value of [_sq_bcc] as a product of three factors in
    [e = exp(-arg)]. *)
Lemma sq_bcc_product (qa qb qc dnn d_factor : R) :
  let e := exp (- lattice_arg qa qb qc dnn d_factor) in
  let D1 := denominator_factor e (0.5 * dnn * lattice_a1 qa qb qc) in
  let D2 := denominator_factor e (0.5 * dnn * lattice_a2 qa qb qc) in
  let D3 := denominator_factor e (0.5 * dnn * lattice_a3 qa qb qc) in
  D1 <> 0 -> D2 <> 0 -> D3 <> 0 ->
  _sq_bcc qa qb qc dnn d_factor
  = (1 - e * e) / D1 * ((1 - e * e) / D2) * ((1 - e * e) / D3).
Proof.
  intros e D1 D2 D3 H1 H2 H3. unfold _sq_bcc. cbv zeta.
  fold e. fold D1. fold D2. fold D3.
  unfold expm1, cube. rewrite BccForms.exp_neg_double. fold e.
  field. auto.
Qed.

Lemma factor_bounds (e c : R) :
  0 < e < 1 -> -1 <= c <= 1 ->
  (1 - e) / (1 + e) <= (1 - e * e) / ((e - 2 * c) * e + 1)
  <= (1 + e) / (1 - e).
Proof.
  intros He Hc.
  assert (HD : 0 < (e - 2 * c) * e + 1) by nra.
  assert (Hlo : (1 - e) * (1 - e) <= (e - 2 * c) * e + 1) by nra.
  assert (Hhi : (e - 2 * c) * e + 1 <= (1 + e) * (1 + e)) by nra.
  set (D := (e - 2 * c) * e + 1) in *.
  assert (HiD : 0 < / D) by now apply Rinv_0_lt_compat.
  assert (Hip : 0 < / (1 + e)) by (apply Rinv_0_lt_compat; lra).
  assert (Him : 0 < / (1 - e)) by (apply Rinv_0_lt_compat; lra).
  split.
  - assert (Heq : (1 - e * e) / D - (1 - e) / (1 + e)
                  = (1 - e) * ((1 + e) * (1 + e) - D) * (/ D * / (1 + e)))
      by (field; lra).
    assert (0 <= (1 - e) * ((1 + e) * (1 + e) - D) * (/ D * / (1 + e))).
    { apply Rmult_le_pos; [apply Rmult_le_pos; lra |].
      apply Rmult_le_pos; lra. }
    lra.
  - assert (Heq : (1 + e) / (1 - e) - (1 - e * e) / D
                  = (1 + e) * (D - (1 - e) * (1 - e)) * (/ D * / (1 - e)))
      by (field; lra).
    assert (0 <= (1 + e) * (D - (1 - e) * (1 - e)) * (/ D * / (1 - e))).
    { apply Rmult_le_pos; [apply Rmult_le_pos; lra |].
      apply Rmult_le_pos; lra. }
    lra.
Qed.

Lemma product_bounds (lo hi f1 f2 f3 : R) :
  0 < lo -> lo <= f1 <= hi -> lo <= f2 <= hi -> lo <= f3 <= hi ->
  lo * lo * lo <= f1 * f2 * f3 <= hi * hi * hi.
Proof.
  intros Hlo [L1 U1] [L2 U2] [L3 U3].
  assert (H12 : lo * lo <= f1 * f2 <= hi * hi).
  { split; apply Rmult_le_compat; lra. }
  assert (0 < lo * lo) by (apply Rmult_lt_0_compat; lra).
  split; apply Rmult_le_compat; lra.
Qed.

(** For a positive [arg] (a distorted lattice away from [q = 0]) the
    structure factor is positive, and with [e = exp(-arg)] it lies between
    [((1-e)/(1+e))^3] and [((1+e)/(1-e))^3]. *)
Theorem sq_bcc_positive_bounded (qa qb qc dnn d_factor : R) :
  0 < lattice_arg qa qb qc dnn d_factor ->
  let e := exp (- lattice_arg qa qb qc dnn d_factor) in
  0 < _sq_bcc qa qb qc dnn d_factor /\
  ((1 - e) / (1 + e)) ^ 3 <= _sq_bcc qa qb qc dnn d_factor
  <= ((1 + e) / (1 - e)) ^ 3.
Proof.
  intros Harg e.
  assert (He : 0 < e < 1).
  { subst e. split; [apply exp_pos |].
    rewrite <- exp_0. apply exp_increasing. lra. }
  assert (HD : forall x, denominator_factor e x <> 0).
  { intros x. apply Rgt_not_eq, Rlt_gt.
    now apply BccForms.denominator_factor_pos. }
  rewrite sq_bcc_product by apply HD. fold e.
  assert (HF : forall x,
    (1 - e) / (1 + e) <= (1 - e * e) / denominator_factor e x
    <= (1 + e) / (1 - e)).
  { intros x. unfold denominator_factor. plain_literals.
    apply factor_bounds; [exact He | apply COS_bound]. }
  assert (Hlo : 0 < (1 - e) / (1 + e)).
  { apply Rdiv_lt_0_compat; lra. }
  pose proof (product_bounds _ _ _ _ _ Hlo
    (HF (0.5 * dnn * lattice_a1 qa qb qc))
    (HF (0.5 * dnn * lattice_a2 qa qb qc))
    (HF (0.5 * dnn * lattice_a3 qa qb qc))) as [Hl Hu].
  assert (H3 : 0 < (1 - e) / (1 + e) * ((1 - e) / (1 + e))
                   * ((1 - e) / (1 + e))).
  { apply Rmult_lt_0_compat; [apply Rmult_lt_0_compat |]; exact Hlo. }
  replace (((1 - e) / (1 + e)) ^ 3)
    with ((1 - e) / (1 + e) * ((1 - e) / (1 + e)) * ((1 - e) / (1 + e)))
    by ring.
  replace (((1 + e) / (1 - e)) ^ 3)
    with ((1 + e) / (1 - e) * ((1 + e) / (1 - e)) * ((1 + e) / (1 - e)))
    by ring.
  split; [lra | split; lra].
Qed.

Lemma sq_bcc_positive_bounded_witness :
  let e := exp (- lattice_arg 1 0 0 2 1) in
  0 < _sq_bcc 1 0 0 2 1 /\
  ((1 - e) / (1 + e)) ^ 3 <= _sq_bcc 1 0 0 2 1 <= ((1 + e) / (1 - e)) ^ 3.
Proof.
  apply (sq_bcc_positive_bounded 1 0 0 2 1).
  unfold lattice_arg, lattice_a1, lattice_a2, lattice_a3, square.
  plain_literals. lra.
Defined.

(** [_sq_bcc] depends on the wave vector and on [dnn] through their product
    only: multiplying [qa], [qb], [qc] by a non-zero [k] and dividing [dnn]
    by [k] leaves it unchanged. *)
Theorem sq_bcc_scale_invariant (k qa qb qc dnn d_factor : R) :
  k <> 0 ->
  _sq_bcc (k * qa) (k * qb) (k * qc) (dnn / k) d_factor
  = _sq_bcc qa qb qc dnn d_factor.
Proof.
  intros Hk.
  assert (Ha1 : lattice_a1 (k * qa) (k * qb) (k * qc)
                = k * lattice_a1 qa qb qc) by (unfold lattice_a1; ring).
  assert (Ha2 : lattice_a2 (k * qa) (k * qb) (k * qc)
                = k * lattice_a2 qa qb qc) by (unfold lattice_a2; ring).
  assert (Ha3 : lattice_a3 (k * qa) (k * qb) (k * qc)
                = k * lattice_a3 qa qb qc) by (unfold lattice_a3; ring).
  assert (Harg : lattice_arg (k * qa) (k * qb) (k * qc) (dnn / k) d_factor
                 = lattice_arg qa qb qc dnn d_factor).
  { unfold lattice_arg. cbv zeta. rewrite Ha1, Ha2, Ha3.
    unfold square. plain_literals. field. exact Hk. }
  assert (Hx : forall a, 0.5 * (dnn / k) * (k * a) = 0.5 * dnn * a).
  { intros a. plain_literals. field. exact Hk. }
  unfold _sq_bcc. cbv zeta.
  now rewrite Harg, Ha1, Ha2, Ha3, !Hx.
Qed.

Lemma sq_bcc_scale_invariant_witness :
  _sq_bcc (10 * 1) (10 * 0) (10 * 0) (2 / 10) 1 = _sq_bcc 1 0 0 2 1.
Proof. apply (sq_bcc_scale_invariant 10 1 0 0 2 1). lra. Defined.

(** At [qa = qb = qc = 0], for every [dnn] and [d_factor], [arg] is 0, the
    numerator of [_sq_bcc] is 0 and each of the three factors of its
    denominator is 0: the quotient there is 0/0. *)
Theorem sq_bcc_origin_zero_over_zero (dnn d_factor : R) :
  let arg := lattice_arg 0 0 0 dnn d_factor in
  arg = 0 /\
  - cube (expm1 (- 2.0 * arg)) = 0 /\
  denominator_factor (exp (- arg)) (0.5 * dnn * lattice_a1 0 0 0) = 0 /\
  denominator_factor (exp (- arg)) (0.5 * dnn * lattice_a2 0 0 0) = 0 /\
  denominator_factor (exp (- arg)) (0.5 * dnn * lattice_a3 0 0 0) = 0.
Proof.
  intros arg.
  assert (Harg : arg = 0).
  { subst arg. unfold lattice_arg, lattice_a1, lattice_a2, lattice_a3.
    cbv zeta. ring. }
  assert (Hx : forall a, a = 0 ->
    denominator_factor (exp (- arg)) (0.5 * dnn * a) = 0).
  { intros a ->. rewrite Harg, Ropp_0, exp_0, Rmult_0_r.
    unfold denominator_factor. rewrite cos_0. lra. }
  split; [exact Harg |]. split.
  - rewrite Harg, Rmult_0_r. unfold expm1, cube. rewrite exp_0. ring.
  - repeat split; apply Hx;
      unfold lattice_a1, lattice_a2, lattice_a3; ring.
Qed.

(** Without distortion ([d_factor = 0]) the numerator of [_sq_bcc] is 0, so
    the structure factor is 0 wherever none of the three cosines is 1, that
    is away from the lattice peaks. *)
Theorem sq_bcc_undistorted (qa qb qc dnn : R) :
  cos (0.5 * dnn * lattice_a1 qa qb qc) <> 1 ->
  cos (0.5 * dnn * lattice_a2 qa qb qc) <> 1 ->
  cos (0.5 * dnn * lattice_a3 qa qb qc) <> 1 ->
  _sq_bcc qa qb qc dnn 0 = 0 /\
  denominator_factor (exp (- lattice_arg qa qb qc dnn 0))
    (0.5 * dnn * lattice_a1 qa qb qc)
  * denominator_factor (exp (- lattice_arg qa qb qc dnn 0))
      (0.5 * dnn * lattice_a2 qa qb qc)
  * denominator_factor (exp (- lattice_arg qa qb qc dnn 0))
      (0.5 * dnn * lattice_a3 qa qb qc) <> 0.
Proof.
  intros H1 H2 H3.
  assert (Harg : lattice_arg qa qb qc dnn 0 = 0).
  { unfold lattice_arg, square. cbv zeta. ring. }
  assert (HD : forall x, cos x <> 1 -> denominator_factor (exp (- 0)) x <> 0).
  { intros x Hx. rewrite Ropp_0, exp_0. unfold denominator_factor.
    intros H. apply Hx. lra. }
  rewrite Harg. split.
  - unfold _sq_bcc. cbv zeta. rewrite Harg, Rmult_0_r.
    unfold expm1, cube. rewrite exp_0. unfold Rdiv. ring.
  - repeat apply Rmult_integral_contrapositive_currified; now apply HD.
Qed.

Lemma sq_bcc_undistorted_witness :
  _sq_bcc (PI / 2) 0 0 2 0 = 0 /\
  denominator_factor (exp (- lattice_arg (PI / 2) 0 0 2 0))
    (0.5 * 2 * lattice_a1 (PI / 2) 0 0)
  * denominator_factor (exp (- lattice_arg (PI / 2) 0 0 2 0))
      (0.5 * 2 * lattice_a2 (PI / 2) 0 0)
  * denominator_factor (exp (- lattice_arg (PI / 2) 0 0 2 0))
      (0.5 * 2 * lattice_a3 (PI / 2) 0 0) <> 0.
Proof.
  apply (sq_bcc_undistorted (PI / 2) 0 0 2).
  - replace (0.5 * 2 * lattice_a1 (PI / 2) 0 0) with (PI / 2)
      by (unfold lattice_a1; lra).
    rewrite cos_PI2. lra.
  - replace (0.5 * 2 * lattice_a2 (PI / 2) 0 0) with (PI / 2)
      by (unfold lattice_a2; lra).
    rewrite cos_PI2. lra.
  - replace (0.5 * 2 * lattice_a3 (PI / 2) 0 0) with (- (PI / 2))
      by (unfold lattice_a3; lra).
    rewrite cos_neg, cos_PI2. lra.
Defined.

End BccMore.

(** ** BCC paracrystal, oriented case: properties *)

Module OrientedMore.
Import Bcc Oriented.

(** When the orientation helper returns direction cosines of unit length,
    the magnitude [Iqxy] recomputes from [qa], [qb], [qc] is the absolute
    value of the magnitude the helper returned, and [Iqxy] is the volume
    fraction times the form factor at that magnitude times one evaluation of
    [_sq_bcc]. *)
Theorem Iqxy_unit_direction
    (sphere_volume : R -> R) (sphere_form : R -> R -> R -> R -> R)
    (ORIENT_ASYMMETRIC : R -> R -> R -> R -> R -> R * R * R * R)
    (qx qy dnn d_factor radius sld solvent_sld theta phi psi : R)
    (q xhat yhat zhat : R) :
  ORIENT_ASYMMETRIC qx qy theta phi psi = (q, xhat, yhat, zhat) ->
  xhat * xhat + yhat * yhat + zhat * zhat = 1 ->
  Iqxy sphere_volume sphere_form ORIENT_ASYMMETRIC
    qx qy dnn d_factor radius sld solvent_sld theta phi psi
  = _bcc_volume_fraction sphere_volume radius dnn
    * sphere_form (Rabs q) radius sld solvent_sld
    * _sq_bcc (q * xhat) (q * yhat) (q * zhat) dnn d_factor.
Proof.
  intros Ho Hunit. unfold Iqxy. rewrite Ho.
  replace (q * xhat * (q * xhat) + q * yhat * (q * yhat)
           + q * zhat * (q * zhat))
    with (Rsqr q * (xhat * xhat + yhat * yhat + zhat * zhat))
    by (unfold Rsqr; ring).
  rewrite Hunit, Rmult_1_r, sqrt_Rsqr_abs. reflexivity.
Qed.

Lemma Iqxy_unit_direction_witness :
  Iqxy (fun r => r) (fun q _ _ _ => q) (fun _ _ _ _ _ => (-2, 0, 1, 0))
    1 2 3 4 5 6 7 8 9 10
  = _bcc_volume_fraction (fun r => r) 5 3
    * Rabs (-2)
    * _sq_bcc (-2 * 0) (-2 * 1) (-2 * 0) 3 4.
Proof.
  apply (Iqxy_unit_direction (fun r => r) (fun q _ _ _ => q)
           (fun _ _ _ _ _ => (-2, 0, 1, 0)) 1 2 3 4 5 6 7 8 9 10 (-2) 0 1 0).
  - reflexivity.
  - ring.
Defined.

End OrientedMore.

(** ** BCC orientation average: further properties *)

Module BccAverageMore.
Import Bcc.

(** The argument of the exponential is positive for a distorted lattice at
    any non-zero wave vector. *)
Lemma lattice_arg_pos (qa qb qc dnn d_factor : R) :
  dnn <> 0 -> d_factor <> 0 -> 0 < qa * qa + qb * qb + qc * qc ->
  0 < lattice_arg qa qb qc dnn d_factor.
Proof.
  intros Hd Hf Hq. unfold lattice_arg, square. plain_literals. cbv zeta.
  assert (Hdf : 0 < 1 / 2 * dnn * d_factor * (1 / 2 * dnn * d_factor)).
  { assert (Hne : 1 / 2 * dnn * d_factor <> 0).
    { repeat apply Rmult_integral_contrapositive_currified; lra. }
    pose proof (Rsqr_pos_lt _ Hne) as H. exact H. }
  assert (Ha : 0 < lattice_a1 qa qb qc * lattice_a1 qa qb qc
                   + lattice_a2 qa qb qc * lattice_a2 qa qb qc
                   + lattice_a3 qa qb qc * lattice_a3 qa qb qc).
  { unfold lattice_a1, lattice_a2, lattice_a3.
    pose proof (Rle_0_sqr (qa - qb)) as H1.
    pose proof (Rle_0_sqr (qa - qc)) as H2.
    pose proof (Rle_0_sqr (qb - qc)) as H3.
    unfold Rsqr in *. nra. }
  apply Rmult_lt_0_compat; [apply Rmult_lt_0_compat; lra | exact Ha].
Qed.

Lemma sq_bcc_pos (qa qb qc dnn d_factor : R) :
  0 < lattice_arg qa qb qc dnn d_factor ->
  0 < _sq_bcc qa qb qc dnn d_factor.
Proof.
  intros Harg.
  set (e := exp (- lattice_arg qa qb qc dnn d_factor)).
  assert (He : 0 < e < 1).
  { subst e. split; [apply exp_pos |].
    rewrite <- exp_0. apply exp_increasing. lra. }
  assert (HD : forall x, 0 < denominator_factor e x).
  { intros x. now apply BccForms.denominator_factor_pos. }
  unfold _sq_bcc. cbv zeta. fold e.
  unfold expm1, cube. rewrite BccForms.exp_neg_double. fold e.
  apply Rdiv_lt_0_compat.
  - assert (H1 : 0 < 1 - e * e) by nra.
    replace (- ((e * e - 1) * (e * e - 1) * (e * e - 1)))
      with ((1 - e * e) * (1 - e * e) * (1 - e * e)) by ring.
    apply Rmult_lt_0_compat; [apply Rmult_lt_0_compat |]; exact H1.
  - apply Rmult_lt_0_compat; [apply Rmult_lt_0_compat |]; apply HD.
Qed.

Lemma sum_f_R0_nonneg (f : nat -> R) (n : nat) :
  (forall k, (k <= n)%nat -> 0 <= f k) -> 0 <= sum_f_R0 f n.
Proof.
  induction n as [| n IH]; intros Hf; cbn [sum_f_R0].
  - apply Hf. lia.
  - assert (0 <= sum_f_R0 f n) by (apply IH; intros k Hk; apply Hf; lia).
    assert (0 <= f (S n)) by (apply Hf; lia). lra.
Qed.

Section Average.

Variable sphere_volume : R -> R.
Variable sphere_form : R -> R -> R -> R -> R.
Variable Gauss150Z : list R.
Variable Gauss150Wt : list R.

Hypothesis weights_nonneg :
  forall k, (k < 150)%nat -> 0 <= slot Gauss150Wt k.
Hypothesis nodes_in_range :
  forall k, (k < 150)%nat -> -1 <= slot Gauss150Z k <= 1.

Lemma gauss150_nonneg (f : R -> R) :
  (forall z, -1 <= z <= 1 -> 0 <= f z) ->
  0 <= gauss150 Gauss150Z Gauss150Wt f.
Proof.
  intros Hf. unfold gauss150. apply sum_f_R0_nonneg. intros k Hk.
  apply Rmult_le_pos.
  - apply weights_nonneg. lia.
  - apply Hf. apply nodes_in_range. lia.
Qed.

Lemma powder_average_nonneg (q dnn d_factor : R) :
  q <> 0 -> dnn <> 0 -> d_factor <> 0 ->
  0 <= powder_average Gauss150Z Gauss150Wt q dnn d_factor.
Proof.
  intros Hq Hd Hf. unfold powder_average.
  pose proof PI_RGT_0 as Hpi.
  apply Rmult_le_pos; [| left; apply Rinv_0_lt_compat; lra].
  apply Rmult_le_pos; [lra |].
  apply gauss150_nonneg. intros zt Hzt. cbv zeta.
  assert (Hsin : 0 <= sin (angle (PI / 2) (PI / 2) zt)).
  { unfold angle. apply sin_ge_0; nra. }
  apply Rmult_le_pos; [| exact Hsin].
  apply Rmult_le_pos; [lra |].
  apply gauss150_nonneg. intros zp _. cbv zeta.
  left. apply sq_bcc_pos. apply lattice_arg_pos; try assumption.
  set (th := angle (PI / 2) (PI / 2) zt). set (ph := angle PI PI zp).
  pose proof (sin2_cos2 th) as Hth. pose proof (sin2_cos2 ph) as Hph.
  unfold Rsqr in Hth, Hph.
  replace (q * sin th * cos ph * (q * sin th * cos ph)
           + q * sin th * sin ph * (q * sin th * sin ph)
           + q * cos th * (q * cos th))
    with (q * q * (sin th * sin th * (sin ph * sin ph + cos ph * cos ph)
                   + cos th * cos th)) by ring.
  rewrite Hph, Rmult_1_r, Hth, Rmult_1_r.
  pose proof (Rsqr_pos_lt q Hq) as H. exact H.
Qed.

(** With non-negative quadrature weights and nodes in [-1, 1], a non-zero
    [q], [dnn] and [d_factor], and a non-negative product of volume
    fraction and form factor, [Iq] is non-negative. *)
Theorem Iq_nonneg (q dnn d_factor radius sld solvent_sld : R) :
  q <> 0 -> dnn <> 0 -> d_factor <> 0 ->
  0 <= _bcc_volume_fraction sphere_volume radius dnn
       * sphere_form q radius sld solvent_sld ->
  0 <= Iq sphere_volume sphere_form Gauss150Z Gauss150Wt
         q dnn d_factor radius sld solvent_sld.
Proof.
  intros Hq Hd Hf Hvp.
  pose proof (powder_average_nonneg q dnn d_factor Hq Hd Hf) as Hs.
  unfold Iq. cbv zeta.
  rewrite BccAverage.outer_loop_sum, lit_four.
  apply Rmult_le_pos; [exact Hvp |].
  unfold powder_average in Hs.
  replace (gauss150 Gauss150Z Gauss150Wt _ * (PI / 2) / (4 * PI))
    with (PI / 2 * gauss150 Gauss150Z Gauss150Wt (fun zt =>
            let theta := angle (PI / 2) (PI / 2) zt in
            PI *
            gauss150 Gauss150Z Gauss150Wt (fun zp =>
              let phi := angle PI PI zp in
              _sq_bcc (q * sin theta * cos phi) (q * sin theta * sin phi)
                (q * cos theta) dnn d_factor)
            * sin theta) / (4 * PI)); [exact Hs |].
  unfold Rdiv. ring.
Qed.

End Average.

Lemma Iq_nonneg_witness :
  0 <= Iq (fun _ => 1) (fun _ _ _ _ => 1) [0.5; -0.5] [1; 1] 2 3 4 5 6 7.
Proof.
  apply (Iq_nonneg (fun _ => 1) (fun _ _ _ _ => 1) [0.5; -0.5] [1; 1]).
  - intros [| [| k]] _; unfold slot; cbn [nth]; try lra.
    destruct k; lra.
  - intros [| [| k]] _; unfold slot; cbn [nth]; try lra.
    destruct k; lra.
  - lra.
  - lra.
  - lra.
  - unfold _bcc_volume_fraction. lra.
Defined.

End BccAverageMore.
